(** * hashtable.h: a fixed-capacity, separately chained hash table

    Shallow embedding of [src/hashtable.h] and the properties of its
    operations.  The C objects are modelled by value:

    - an unsigned 32-bit integer is a [Z] reduced modulo [2^32] wherever the
      source computes one;
    - a heap buffer is the list of its bytes, and a pointer to one is an
      [option] ([None] is the null pointer);
    - a bucket chain is the list of its nodes, ended by the null pointer or
      by a pointer to a node that was freed ([Dangling]);
    - whatever the C standard leaves undefined (a null or freed pointer
      dereferenced, a read past the end of a buffer, a division by zero) is
      the outcome [Undefined];
    - the allocator is an oracle: each call of [MALLOC] or [REALLOC] takes
      the next answer from a list of booleans.

    The layout constants are those of an LP64 platform.  Freed memory is
    not part of a value, so what [destroyHashTable] yields is the number of
    its [FREE] calls, the figure the [_DEBUG] build keeps in [free_count]. *)

From Stdlib Require Import ZArith Lia Bool List.
From Stdlib Require Import Strings.Byte.
From stdpp Require Import base list.
Import ListNotations.

Local Open Scope Z_scope.

(** ** Outcomes *)

Inductive fault : Type :=
| NullDeref      (* access through a null pointer *)
| UseAfterFree   (* access to a freed node *)
| OutOfBounds    (* read or write past the end of a buffer *)
| DivByZero.     (* [%] with a zero divisor *)

Inductive result (A : Type) : Type :=
| Ok (a : A)
| Undefined (f : fault).

Arguments Ok {A} a.
Arguments Undefined {A} f.

Definition bind {A B : Type} (m : result A) (k : A -> result B) : result B :=
  match m with
  | Ok a => k a
  | Undefined f => Undefined f
  end.

Notation "'let*' x ':=' m 'in' k" := (bind m (fun x => k))
  (at level 10, x name, m at level 100, k at level 200).

(** ** Machine integers *)

Definition u32 (z : Z) : Z := z mod 2 ^ 32.
Definition size_t (z : Z) : Z := z mod 2 ^ 64.

Definition PTRDIFF_MAX : Z := 2 ^ 63 - 1.

(** [sizeof(HashTable)]: two [unsigned int] and a pointer. *)
Definition sizeof_HashTable : Z := 16.

(** [sizeof(HashTableEntry)]: a pointer, an [unsigned short] (padded), a
    [HashValue] (a pointer and a padded [unsigned short]) and a pointer. *)
Definition sizeof_HashTableEntry : Z := 40.

(** ** The allocator *)

Definition oracle : Type := list bool.

(** [MALLOC n]: [true] stands for a non-null result.  No allocator returns
    an object of more than [PTRDIFF_MAX] bytes; below that the oracle
    decides, and an exhausted oracle grants every request. *)
Definition MALLOC (n : Z) (o : oracle) : bool * oracle :=
  match o with
  | [] => (n <=? PTRDIFF_MAX, [])
  | granted :: o' => (granted && (n <=? PTRDIFF_MAX), o')
  end.

(** An object may hold bytes that were never written. *)
Definition mbyte : Type := option byte.

(** The contents of a buffer of [old] resized to [n] bytes: the common
    prefix is kept, the new tail is indeterminate. *)
Definition resized (old : list mbyte) (n : Z) : list mbyte :=
  firstn (Z.to_nat n) old ++ repeat None (Z.to_nat n - length old)%nat.

(** [REALLOC ptr n]: the resized buffer, or [None] (null) on failure, in
    which case the old buffer stays as it is.  [REALLOC NULL n] is
    [MALLOC n]. *)
Definition REALLOC (ptr : option (list mbyte)) (n : Z) (o : oracle)
  : option (list mbyte) * oracle :=
  let '(granted, o') := MALLOC n o in
  if granted
  then (Some (resized (match ptr with Some old => old | None => [] end) n), o')
  else (None, o').

(** ** <string.h> *)

Definition blen {A : Type} (s : list A) : Z := Z.of_nat (length s).

(** The [n] bytes that [memcpy(dst, src, n)] writes to [dst]. *)
Definition memcpy (src : list byte) (n : Z) : result (list byte) :=
  if n <=? blen src then Ok (firstn (Z.to_nat n) src) else Undefined OutOfBounds.

Fixpoint memcmp_bytes (s1 s2 : list byte) (n : nat) {struct n} : Z :=
  match n, s1, s2 with
  | S n', c1 :: s1', c2 :: s2' =>
      if Byte.eqb c1 c2 then memcmp_bytes s1' s2' n'
      else if (Byte.to_N c1 <? Byte.to_N c2)%N then -1 else 1
  | _, _, _ => 0
  end.

(** [memcmp(s1, s2, n)] reads [n] bytes of both objects. *)
Definition memcmp (s1 s2 : list byte) (n : Z) : result Z :=
  if (n <=? blen s1) && (n <=? blen s2)
  then Ok (memcmp_bytes s1 s2 (Z.to_nat n))
  else Undefined OutOfBounds.

(** ** Data model *)

Record HashValue : Type := mkHashValue
  { value : option (list mbyte);
    value_size : Z }.

(** The [next] field of an entry is the tail of the chain it heads. *)
Record HashTableEntry : Type := mkHashTableEntry
  { key : option (list byte);
    key_size : Z;
    v : HashValue }.

Inductive chain : Type :=
| NULL
| Node (entry : HashTableEntry) (next : chain)
| Dangling.

Record HashTable : Type := mkHashTable
  { capacity : Z;
    size : Z;
    table : option (list chain) }.

(** ** createHashTable *)

(** [size] is an [int].  The byte count [size * sizeof(HashTableEntry)] is
    computed in [size_t]; the loop stores [size] null pointers (none when
    [size <= 0]); [capacity] receives [size] converted to [unsigned int]. *)
Definition createHashTable (size : Z) (o : oracle) : option HashTable * oracle :=
  let '(newHashTable, o1) := MALLOC sizeof_HashTable o in
  if negb newHashTable then (None, o1)
  else
    let '(newTable, o2) :=
      MALLOC (size_t (size_t size * sizeof_HashTableEntry)) o1 in
    if negb newTable then (None, o2)
    else (Some (mkHashTable (u32 size) 0 (Some (repeat NULL (Z.to_nat size)))), o2).

(** ** Pieces of insertInHashTable that do not hash *)

(** A fresh entry, as both branches of [insertInHashTable] build it: the
    node, the key buffer and the value buffer are allocated in this order,
    none of the three results is tested, and the first access through a
    null one is undefined.  [next] is set to null by the caller's [Node]. *)
Definition new_entry (key : list byte) (keysize : Z) (value : list byte)
    (valuesize : Z) (o : oracle) : result (HashTableEntry * oracle) :=
  let '(node, o1) := MALLOC sizeof_HashTableEntry o in
  if negb node then Undefined NullDeref
  else
    let '(keybuf, o2) := MALLOC keysize o1 in
    let '(valuebuf, o3) := MALLOC valuesize o2 in
    if negb keybuf then Undefined NullDeref
    else
      let* k := memcpy key keysize in
      if negb valuebuf then Undefined NullDeref
      else
        let* w := memcpy value valuesize in
        Ok (mkHashTableEntry (Some k) keysize
              (mkHashValue (Some (map Some w)) valuesize), o3).

(** [entry->key != NULL && memcmp(entry->key, key, keysize) == 0],
    the test of the scan in [insertInHashTable]. *)
Definition same_bytes (entry : HashTableEntry) (k : list byte) (n : Z)
  : result bool :=
  match key entry with
  | None => Ok false
  | Some stored => let* r := memcmp stored k n in Ok (r =? 0)
  end.

(** [entry->key != NULL && entry->key_size == keysize
     && memcmp(entry->key, key, keysize) == 0],
    the test of [removeFromHashTable] and [findInHashTable]. *)
Definition same_key (entry : HashTableEntry) (k : list byte) (n : Z)
  : result bool :=
  match key entry with
  | None => Ok false
  | Some stored =>
      if key_size entry =? n
      then let* r := memcmp stored k n in Ok (r =? 0)
      else Ok false
  end.

(** The body of "The key is equal. We can overwrite the value!": the buffer
    grows when the new value is longer, and nothing is copied into it. *)
Definition overwrite (entry : HashTableEntry) (valuesize : Z) (o : oracle)
  : HashTableEntry * oracle :=
  if value_size (v entry) <? valuesize
  then
    let '(newvalue, o1) := REALLOC (value (v entry)) valuesize o in
    match newvalue with
    | Some buf =>
        (mkHashTableEntry (key entry) (key_size entry)
           (mkHashValue (Some buf) valuesize), o1)
    | None => (entry, o1)
    end
  else (entry, o).

(** The [while] loop of [insertInHashTable] and the append after it.  The
    boolean tells whether control reaches [++ hashtable->size]. *)
Fixpoint insert_chain (entry : chain) (key : list byte) (keysize : Z)
    (value : list byte) (valuesize : Z) (o : oracle)
  : result (chain * bool * oracle) :=
  match entry with
  | NULL =>
      let* fresh := new_entry key keysize value valuesize o in
      let '(e, o1) := fresh in
      Ok (Node e NULL, true, o1)
  | Dangling => Undefined UseAfterFree
  | Node e next =>
      let* hit := same_bytes e key keysize in
      if hit
      then let '(e', o1) := overwrite e valuesize o in Ok (Node e' next, false, o1)
      else
        let* rest := insert_chain next key keysize value valuesize o in
        let '(next', counted, o1) := rest in
        Ok (Node e next', counted, o1)
  end.

(** The [while] loop of [removeFromHashTable]; [has_prev] is
    [prev_entry != NULL].  The result is the chain as the pointer that led
    to [entry] sees it afterwards.  With a predecessor the assignment
    [prev_entry = entry->next] changes a local variable only, so that
    pointer still holds the address of the freed node. *)
Fixpoint remove_chain (entry : chain) (has_prev : bool) (k : list byte)
    (n : Z) : result chain :=
  match entry with
  | NULL => Ok NULL
  | Dangling => Undefined UseAfterFree
  | Node e next =>
      let* hit := same_key e k n in
      if hit
      then Ok (if has_prev then Dangling else next)
      else
        let* next' := remove_chain next true k n in
        Ok (Node e next')
  end.

(** The [while] loop of [findInHashTable]. *)
Fixpoint find_chain (entry : chain) (k : list byte) (n : Z)
  : result (option HashValue) :=
  match entry with
  | NULL => Ok None
  | Dangling => Undefined UseAfterFree
  | Node e next =>
      let* hit := same_key e k n in
      if hit then Ok (Some (v e)) else find_chain next k n
  end.

Section Platform.

(** Whether plain [char] is a signed type is the platform's choice. *)
Variable char_is_signed : bool.

(** The value of [*key], a [char], converted to [unsigned int]. *)
Definition char_to_uint (c : byte) : Z :=
  let n := Z.of_N (Byte.to_N c) in
  u32 (if char_is_signed && (128 <=? n) then n - 256 else n).

(** ** RSHash *)

Definition RSHash_b : Z := 378551.
Definition RSHash_a : Z := 63689.

(** The [for] loop of [RSHash], [n] iterations from the state [(a, hash)]
    with [key] pointing at the bytes not yet read. *)
Fixpoint RSHash_loop (n : nat) (key : list byte) (a hash : Z) : result Z :=
  match n with
  | O => Ok hash
  | S n' =>
      match key with
      | [] => Undefined OutOfBounds
      | c :: key' =>
          RSHash_loop n' key' (u32 (a * RSHash_b)) (u32 (hash * a + char_to_uint c))
      end
  end.

Definition RSHash (key : list byte) (keysize : Z) : result Z :=
  RSHash_loop (Z.to_nat keysize) key RSHash_a 0.

Definition HASH := RSHash.

(** [HASH(key, keysize) % hashtable->capacity] *)
Definition bucket_of (hashtable : HashTable) (key : list byte) (keysize : Z)
  : result Z :=
  let* h := HASH key keysize in
  if capacity hashtable =? 0 then Undefined DivByZero
  else Ok (h mod capacity hashtable).

(** [hashtable->table[hash]] *)
Definition bucket (buckets : list chain) (hash : Z) : result chain :=
  match buckets !! Z.to_nat hash with
  | Some c => Ok c
  | None => Undefined OutOfBounds
  end.

(** ** insertInHashTable

    The result is the returned [int], the table object afterwards and the
    rest of the oracle. *)
Definition insertInHashTable (hashtable : option HashTable) (key : list byte)
    (keysize : Z) (value : list byte) (valuesize : Z) (o : oracle)
  : result (Z * option HashTable * oracle) :=
  match hashtable with
  | None => Ok (-1, None, o)
  | Some ht =>
      match table ht with
      | None => Ok (-1, hashtable, o)
      | Some buckets =>
          let* hash := bucket_of ht key keysize in
          let* head := bucket buckets hash in
          let* linked :=
            match head with
            | NULL =>
                let* fresh := new_entry key keysize value valuesize o in
                let '(e, o1) := fresh in
                Ok (Node e NULL, true, o1)
            | _ => insert_chain head key keysize value valuesize o
            end in
          let '(head', counted, o1) := linked in
          Ok (0,
              Some (mkHashTable (capacity ht)
                      (if counted then u32 (size ht + 1) else size ht)
                      (Some (<[Z.to_nat hash := head']> buckets))),
              o1)
      end
  end.

(** ** removeFromHashTable *)
Definition removeFromHashTable (hashtable : option HashTable)
    (key : list byte) (keysize : Z) : result (option HashTable) :=
  match hashtable with
  | None => Ok None
  | Some ht =>
      match table ht with
      | None => Ok hashtable
      | Some buckets =>
          let* hash := bucket_of ht key keysize in
          let* head := bucket buckets hash in
          let* head' := remove_chain head false key keysize in
          Ok (Some (mkHashTable (capacity ht) (size ht)
                      (Some (<[Z.to_nat hash := head']> buckets))))
      end
  end.

(** ** findInHashTable

    The function stores nothing, so its only result is the returned
    pointer: [None] is null, [Some d] the descriptor [entry->v]. *)
Definition findInHashTable (hashtable : option HashTable) (key : list byte)
    (keysize : Z) : result (option HashValue) :=
  match hashtable with
  | None => Ok None
  | Some ht =>
      match table ht with
      | None => Ok None
      | Some buckets =>
          let* hash := bucket_of ht key keysize in
          let* head := bucket buckets hash in
          find_chain head key keysize
      end
  end.

(** ** Sequences of calls *)

Record insertion : Type := mkInsertion
  { ins_key : list byte;
    ins_keysize : Z;
    ins_value : list byte;
    ins_valuesize : Z }.

Fixpoint insert_all (hashtable : option HashTable) (calls : list insertion)
    (o : oracle) : result (option HashTable * oracle) :=
  match calls with
  | [] => Ok (hashtable, o)
  | c :: calls' =>
      let* r :=
        insertInHashTable hashtable (ins_key c) (ins_keysize c)
          (ins_value c) (ins_valuesize c) o in
      let '(_, hashtable', o1) := r in
      insert_all hashtable' calls' o1
  end.

End Platform.

(** ** destroyHashTable *)

(** The [do ... while] loop over one chain, entered with [entry != NULL]:
    each round reads [entry->next] and frees the key, the value and the
    node.  The result counts the [FREE] calls. *)
Fixpoint destroy_chain (entry : chain) : result nat :=
  match entry with
  | NULL => Ok 0%nat
  | Dangling => Undefined UseAfterFree
  | Node _ next => let* n := destroy_chain next in Ok (3 + n)%nat
  end.

(** The [for] loop over the buckets: [count] rounds from index [i]. *)
Fixpoint destroy_from (count i : nat) (buckets : list chain) : result nat :=
  match count with
  | O => Ok 0%nat
  | S count' =>
      match buckets !! i with
      | None => Undefined OutOfBounds
      | Some head =>
          let* n := destroy_chain head in
          let* m := destroy_from count' (S i) buckets in
          Ok (n + m)%nat
      end
  end.

(** A null handle, and a table without bucket array, are left alone; else
    every chain is released, then the bucket array and the table object. *)
Definition destroyHashTable (hashtable : option HashTable) : result nat :=
  match hashtable with
  | None => Ok 0%nat
  | Some ht =>
      match table ht with
      | None => Ok 0%nat
      | Some buckets =>
          let* n := destroy_from (Z.to_nat (capacity ht)) 0 buckets in
          Ok (n + 2)%nat
      end
  end.

(** * Vocabulary of the properties *)

Definition byte_value (c : byte) : Z := Z.of_N (Byte.to_N c).

(** One round of the hash on the pair (multiplier, hash), the byte
    contributing the number [c]. *)
Definition hash_round (st : Z * Z) (c : Z) : Z * Z :=
  (u32 (fst st * 378551), u32 (snd st * fst st + c)).

(** The hash in the words of the specification: every byte counts with its
    unsigned value. *)
Definition spec_hash (bytes : list byte) : Z :=
  snd (fold_left hash_round (map byte_value bytes) (63689, 0)).

(** The same rounds on the numbers that [*key] yields on the platform. *)
Definition char_hash (signed : bool) (bytes : list byte) : Z :=
  snd (fold_left hash_round (map (char_to_uint signed) bytes) (63689, 0)).

(** The entries that a walk along the chain visits. *)
Fixpoint chain_entries (c : chain) : list HashTableEntry :=
  match c with
  | Node e next => e :: chain_entries next
  | NULL | Dangling => []
  end.

(** The chain ends with the null pointer. *)
Fixpoint terminated (c : chain) : Prop :=
  match c with
  | NULL => True
  | Node _ next => terminated next
  | Dangling => False
  end.

(** The nodes [pre], linked in this order, followed by [c]. *)
Definition chain_app (pre : list HashTableEntry) (c : chain) : chain :=
  fold_right Node c pre.

(** The key buffer of an entry, when there is one, has [key_size] bytes. *)
Definition entry_wf (e : HashTableEntry) : Prop :=
  match key e with
  | Some stored => blen stored = key_size e
  | None => True
  end.

Definition chain_wf (c : chain) : Prop :=
  terminated c /\ Forall entry_wf (chain_entries c).

(** What identifies an entry: its key size and its key bytes. *)
Definition key_of (e : HashTableEntry) : Z * option (list byte) :=
  (key_size e, key e).

(** No two entries of the chain have the same key size and key bytes. *)
Definition chain_unique (c : chain) : Prop :=
  NoDup (map key_of (chain_entries c)).

(** The scan of [insertInHashTable] takes the entry for the key [k] of [n]
    bytes, or passes it. *)
Definition taken_for (k : list byte) (n : Z) (e : HashTableEntry) : Prop :=
  same_bytes e k n = Ok true.

Definition passed_for (k : list byte) (n : Z) (e : HashTableEntry) : Prop :=
  same_bytes e k n = Ok false.

(** The entry holds exactly the key of [n] bytes [k]. *)
Definition holds_key (k : list byte) (n : Z) (e : HashTableEntry) : Prop :=
  key_size e = n /\ key e = Some k.

(** The table object is as [createHashTable] lays it out, with sound
    chains: [capacity] buckets, at least one, each chain ended by null. *)
Definition table_wf (ht : HashTable) (buckets : list chain) : Prop :=
  table ht = Some buckets /\
  capacity ht = blen buckets /\
  0 < capacity ht /\
  Forall chain_wf buckets.

(** The number of entries that the chains of the buckets hold. *)
Definition total_entries (buckets : list chain) : nat :=
  sum_list (map (fun c => length (chain_entries c)) buckets).

(** The allocator grants every request that can be granted. *)
Definition granting (o : oracle) : Prop := Forall (fun b => b = true) o.

(** ** Sample objects *)

(** An entry with its buffers filled in, as [new_entry] leaves it. *)
Definition entry_of (k w : list byte) : HashTableEntry :=
  mkHashTableEntry (Some k) (blen k) (mkHashValue (Some (map Some w)) (blen w)).

(** The call [insertInHashTable(hashtable, k, strlen(k), w, strlen(w))]. *)
Definition call_of (k w : list byte) : insertion :=
  mkInsertion k (blen k) w (blen w).

(** A table of one bucket, as [createHashTable(1)] returns it. *)
Definition one_bucket : HashTable := mkHashTable 1 0 (Some [NULL]).

(** * Properties *)

(** ** Arithmetic and buffers *)

Lemma byte_value_range (c : byte) : 0 <= byte_value c < 256.
Proof. destruct c; vm_compute; split; congruence. Qed.

Lemma u32_small (z : Z) : 0 <= z < 2 ^ 32 -> u32 z = z.
Proof. intros H. unfold u32. apply Z.mod_small. exact H. Qed.

Lemma char_to_uint_unsigned (c : byte) :
  char_to_uint false c = byte_value c.
Proof.
  unfold char_to_uint. cbn [andb]. apply u32_small.
  pose proof (byte_value_range c). unfold byte_value in *. lia.
Qed.

Lemma char_to_uint_low (signed : bool) (c : byte) :
  byte_value c < 128 -> char_to_uint signed c = byte_value c.
Proof.
  intros Hc. unfold char_to_uint. fold (byte_value c).
  pose proof (byte_value_range c) as Hr.
  replace (128 <=? byte_value c) with false by (symmetry; apply Z.leb_gt; lia).
  rewrite andb_false_r. apply u32_small. lia.
Qed.

Lemma char_to_uint_high (c : byte) :
  128 <= byte_value c ->
  char_to_uint true c = byte_value c + 2 ^ 32 - 256.
Proof.
  intros Hc. unfold char_to_uint. fold (byte_value c).
  pose proof (byte_value_range c) as Hr.
  replace (128 <=? byte_value c) with true by (symmetry; apply Z.leb_le; lia).
  cbn [andb]. unfold u32.
  rewrite <- (Z.mod_add _ 1) by lia.
  rewrite Z.mod_small; lia.
Qed.

(** ** The hash *)

Lemma RSHash_loop_rounds (signed : bool) (n : nat) :
  forall (key : list byte) (a hash : Z),
    (n <= length key)%nat ->
    RSHash_loop signed n key a hash =
    Ok (snd (fold_left hash_round (map (char_to_uint signed) (firstn n key)) (a, hash))).
Proof.
  induction n as [|n IH]; intros key a hash Hlen.
  - reflexivity.
  - destruct key as [|c key']; cbn [length] in Hlen; [lia|].
    cbn [RSHash_loop firstn map fold_left].
    rewrite IH by lia. reflexivity.
Qed.

Lemma RSHash_char_hash (signed : bool) (key : list byte) (keysize : Z) :
  keysize <= blen key ->
  RSHash signed key keysize = Ok (char_hash signed (firstn (Z.to_nat keysize) key)).
Proof.
  intros Hlen. unfold RSHash, char_hash, blen in *.
  apply RSHash_loop_rounds. lia.
Qed.

Lemma char_hash_spec_hash (signed : bool) (bytes : list byte) :
  signed = false \/ Forall (fun c => byte_value c < 128) bytes ->
  char_hash signed bytes = spec_hash bytes.
Proof.
  intros H. unfold char_hash, spec_hash. f_equal. f_equal.
  apply map_ext_in. intros c Hc. destruct H as [-> | H].
  - apply char_to_uint_unsigned.
  - apply char_to_uint_low. rewrite Forall_forall in H. apply H.
    apply list_elem_of_In. exact Hc.
Qed.

Lemma bucket_of_char_hash (signed : bool) (ht : HashTable) (key : list byte)
    (keysize : Z) :
  keysize <= blen key ->
  capacity ht <> 0 ->
  bucket_of signed ht key keysize =
  Ok (char_hash signed (firstn (Z.to_nat keysize) key) mod capacity ht).
Proof.
  intros Hlen Hcap. unfold bucket_of, HASH.
  rewrite RSHash_char_hash by exact Hlen. cbn [bind].
  destruct (Z.eqb_spec (capacity ht) 0) as [E | _]; [contradiction | reflexivity].
Qed.

Lemma bucket_Ok (buckets : list chain) (hash : Z) (head : chain) :
  bucket buckets hash = Ok head <-> buckets !! Z.to_nat hash = Some head.
Proof.
  unfold bucket. destruct (buckets !! Z.to_nat hash); split; congruence.
Qed.

(** C5, counterexample.  The hash of a key whose top bit is set, on a platform with signed
    [char], is not the one the unsigned reading gives. *)
Lemma RSHash_signed_char_differs :
  RSHash true [x80] 1 = Ok 4294967168 /\
  spec_hash [x80] = 128 /\
  RSHash true [x80] 1 <> Ok (spec_hash [x80]).
Proof. vm_compute. repeat split; congruence. Qed.

(** C5 (as the code has it).  [RSHash] runs over the [keysize] bytes of the
    key the rounds [hash := hash * a + c], then [a := a * b], from
    [a = 63689], [b = 378551], [hash = 0], modulo [2^32], where [c] is the
    byte read as a plain [char] and converted to [unsigned int]: the byte's
    value where [char] is unsigned or the byte is below 128, and that value
    plus [2^32 - 256] for a byte from 128 on where [char] is signed.  With
    unsigned [char], or on keys of bytes below 128, this is the hash of the
    specification.  [findInHashTable] reads, and [insertInHashTable] and
    [removeFromHashTable] rewrite, the one bucket whose index is this hash
    modulo the capacity. *)
Theorem RSHash_bucket_index (signed : bool) (ht : HashTable)
    (buckets : list chain) (key : list byte) (keysize : Z) :
  keysize <= blen key ->
  table ht = Some buckets ->
  capacity ht <> 0 ->
  let bytes := firstn (Z.to_nat keysize) key in
  let h := char_hash signed bytes in
  let i := Z.to_nat (h mod capacity ht) in
  RSHash signed key keysize = Ok h /\
  (forall c : byte,
      char_to_uint signed c =
      if signed && (128 <=? byte_value c)
      then byte_value c + 2 ^ 32 - 256 else byte_value c) /\
  (signed = false \/ Forall (fun c => byte_value c < 128) bytes ->
   h = spec_hash bytes) /\
  findInHashTable signed (Some ht) key keysize =
    (let* head := bucket buckets (h mod capacity ht) in
     find_chain head key keysize) /\
  (forall value valuesize o ret ht' o',
      insertInHashTable signed (Some ht) key keysize value valuesize o
      = Ok (ret, ht', o') ->
      (i < length buckets)%nat /\
      exists head' n,
        ht' = Some (mkHashTable (capacity ht) n (Some (<[i := head']> buckets)))) /\
  (forall ht',
      removeFromHashTable signed (Some ht) key keysize = Ok ht' ->
      (i < length buckets)%nat /\
      exists head',
        ht' = Some (mkHashTable (capacity ht) (size ht)
                      (Some (<[i := head']> buckets)))).
Proof.
  intros Hlen Htable Hcap bytes h i.
  pose proof (bucket_of_char_hash signed ht key keysize Hlen Hcap) as Hidx.
  fold bytes in Hidx. fold h in Hidx.
  split; [apply RSHash_char_hash; exact Hlen|].
  split.
  { intros c. destruct signed; cbn [andb].
    - destruct (Z.leb_spec 128 (byte_value c)).
      + apply char_to_uint_high; assumption.
      + apply char_to_uint_low; assumption.
    - apply char_to_uint_unsigned. }
  split; [apply char_hash_spec_hash|].
  split.
  { unfold findInHashTable. rewrite Htable, Hidx. reflexivity. }
  split.
  - intros value valuesize o ret ht' o' Hins.
    unfold insertInHashTable in Hins. rewrite Htable, Hidx in Hins.
    cbn [bind] in Hins.
    destruct (bucket buckets (h mod capacity ht)) as [head|] eqn:Hb;
      cbn [bind] in Hins; [|discriminate].
    apply bucket_Ok in Hb.
    split; [apply lookup_lt_is_Some; eauto|].
    match type of Hins with
    | bind ?m _ = _ => destruct m as [[[head' counted] o1]|]
    end; cbn [bind] in Hins; [|discriminate].
    injection Hins as _ <- _. eauto.
  - intros ht' Hrem.
    unfold removeFromHashTable in Hrem. rewrite Htable, Hidx in Hrem.
    cbn [bind] in Hrem.
    destruct (bucket buckets (h mod capacity ht)) as [head|] eqn:Hb;
      cbn [bind] in Hrem; [|discriminate].
    apply bucket_Ok in Hb.
    split; [apply lookup_lt_is_Some; eauto|].
    destruct (remove_chain head false key keysize) as [head'|];
      cbn [bind] in Hrem; [|discriminate].
    injection Hrem as <-. eauto.
Qed.

Lemma RSHash_bucket_index_witness :
  let ht := mkHashTable 4 0 (Some [NULL; NULL; NULL; NULL]) in
  RSHash true ["a"%byte; "b"%byte] 2 = Ok 2162651057 /\
  findInHashTable true (Some ht) ["a"%byte; "b"%byte] 2 = Ok None.
Proof.
  intros ht.
  destruct (RSHash_bucket_index true ht [NULL; NULL; NULL; NULL]
              ["a"%byte; "b"%byte] 2) as (Hh & _ & _ & Hf & _).
  - vm_compute. congruence.
  - reflexivity.
  - vm_compute. congruence.
  - split; [exact Hh | exact Hf].
Defined.

(** ** createHashTable *)

Lemma size_t_negative_request (size : Z) :
  (- 2 ^ 31) <= size < 0 ->
  size_t (size_t size * sizeof_HashTableEntry) = 2 ^ 64 + 40 * size.
Proof.
  intros H. unfold size_t, sizeof_HashTableEntry.
  rewrite Z.mul_mod_idemp_l by lia.
  symmetry. apply (Z.mod_unique _ _ (-1)); lia.
Qed.

Lemma MALLOC_too_large (n : Z) (o : oracle) :
  PTRDIFF_MAX < n -> fst (MALLOC n o) = false.
Proof.
  intros H. unfold MALLOC.
  assert ((n <=? PTRDIFF_MAX) = false) as -> by (apply Z.leb_gt; exact H).
  destruct o; cbn; [reflexivity | apply andb_false_r].
Qed.

(** C6, counterexample.  With a capacity of zero and an allocator that
    grants both requests the result is a table, not null. *)
Lemma createHashTable_zero_capacity :
  0 <= 0 /\
  createHashTable 0 [] = (Some (mkHashTable 0 0 (Some [])), []) /\
  fst (createHashTable 0 []) <> None.
Proof. vm_compute. repeat split; congruence. Qed.

(** C6 (as the code has it).  [createHashTable(capacity)] returns null
    whenever one of its two allocations fails, and the second one always
    fails for [capacity < 0], whose byte count wraps to more than
    [PTRDIFF_MAX].  The capacity itself is not tested: when both
    allocations succeed, which includes [capacity = 0], the result is a
    table of that capacity with [capacity] buckets, all empty, and size 0. *)
Theorem createHashTable_result (size : Z) (o : oracle) :
  (- 2 ^ 31) <= size < 2 ^ 31 ->
  let first := MALLOC sizeof_HashTable o in
  let second :=
    MALLOC (size_t (size_t size * sizeof_HashTableEntry)) (snd first) in
  (size < 0 -> fst second = false) /\
  (fst first = false \/ fst second = false ->
   fst (createHashTable size o) = None) /\
  (fst first = true -> fst second = true ->
   0 <= size /\
   exists buckets,
     createHashTable size o
     = (Some (mkHashTable size 0 (Some buckets)), snd second) /\
     blen buckets = size /\
     Forall (fun c => c = NULL) buckets).
Proof.
  intros Hint first second.
  assert (Hneg : size < 0 -> fst second = false).
  { intros Hs. subst second. apply MALLOC_too_large.
    rewrite size_t_negative_request by lia. unfold PTRDIFF_MAX. lia. }
  split; [exact Hneg|].
  unfold createHashTable. fold first.
  destruct first as [b1 o1] eqn:E1. cbn [fst snd] in *.
  fold second. destruct second as [b2 o2] eqn:E2. cbn [fst snd] in *.
  split.
  - intros [-> | ->]; [reflexivity|]. destruct b1; reflexivity.
  - intros -> ->. cbn [negb].
    assert (0 <= size) as Hpos.
    { destruct (Z.lt_ge_cases size 0) as [Hs|Hs]; [|exact Hs].
      specialize (Hneg Hs). discriminate. }
    split; [exact Hpos|].
    exists (repeat NULL (Z.to_nat size)).
    split; [|split].
    + rewrite u32_small by lia. reflexivity.
    + unfold blen. rewrite repeat_length. lia.
    + apply Forall_forall. intros c Hc. apply list_elem_of_In in Hc.
      apply repeat_spec in Hc. exact Hc.
Qed.

Lemma createHashTable_result_witness :
  exists buckets : list chain,
    createHashTable 3 [true; true]
    = (Some (mkHashTable 3 0 (Some buckets)), []) /\
    blen buckets = 3 /\ Forall (fun c => c = NULL) buckets.
Proof.
  destruct (createHashTable_result 3 [true; true]) as (_ & _ & H).
  - lia.
  - destruct H as (_ & H); [reflexivity | reflexivity |]. exact H.
Defined.

(** ** Key comparison *)

Lemma memcmp_bytes_zero (n : nat) :
  forall s1 s2 : list byte,
    (n <= length s1)%nat -> (n <= length s2)%nat ->
    (memcmp_bytes s1 s2 n = 0 <-> firstn n s1 = firstn n s2).
Proof.
  induction n as [|n IH]; intros s1 s2 H1 H2.
  - cbn. split; reflexivity.
  - destruct s1 as [|c1 s1]; cbn [length] in H1; [lia|].
    destruct s2 as [|c2 s2]; cbn [length] in H2; [lia|].
    cbn [memcmp_bytes firstn].
    destruct (Byte.eqb c1 c2) eqn:E.
    + apply Byte.byte_dec_bl in E. subst c2.
      rewrite IH by lia. split; [congruence|].
      intros H. injection H as H. exact H.
    + apply Byte.eqb_false in E.
      split.
      * destruct (Byte.to_N c1 <? Byte.to_N c2)%N; discriminate.
      * intros H. injection H as H _. contradiction.
Qed.

Lemma memcmp_zero (s1 s2 : list byte) (n : Z) :
  n <= blen s1 -> n <= blen s2 ->
  exists r, memcmp s1 s2 n = Ok r /\
            (r = 0 <-> firstn (Z.to_nat n) s1 = firstn (Z.to_nat n) s2).
Proof.
  intros H1 H2. unfold memcmp, blen in *.
  assert ((n <=? Z.of_nat (length s1)) = true) as -> by (apply Z.leb_le; lia).
  assert ((n <=? Z.of_nat (length s2)) = true) as -> by (apply Z.leb_le; lia).
  cbn [andb]. eexists. split; [reflexivity|].
  apply memcmp_bytes_zero; lia.
Qed.

Lemma same_key_holds (e : HashTableEntry) (k : list byte) (n : Z) :
  entry_wf e -> n <= blen k ->
  exists hit, same_key e k n = Ok hit /\
              (hit = true <-> holds_key (firstn (Z.to_nat n) k) n e).
Proof.
  intros Hwf Hlen. unfold same_key, entry_wf, holds_key in *.
  destruct (key e) as [stored|].
  - destruct (Z.eqb_spec (key_size e) n) as [Hn | Hn].
    + destruct (memcmp_zero stored k n) as (r & -> & Hr); [lia | lia |].
      cbn [bind]. eexists. split; [reflexivity|].
      rewrite Z.eqb_eq, Hr.
      assert (firstn (Z.to_nat n) stored = stored) as ->.
      { apply firstn_all2. unfold blen in Hwf. lia. }
      split; [intros ->; split; [exact Hn | reflexivity]|].
      intros [_ H]. congruence.
    + exists false. split; [reflexivity|].
      split; [discriminate | intros [H _]; contradiction].
  - exists false. split; [reflexivity|].
    split; [discriminate | intros [_ H]; discriminate].
Qed.

(** ** findInHashTable *)

Lemma find_chain_first (c : chain) (k : list byte) (n : Z) :
  chain_wf c -> n <= blen k ->
  exists r,
    find_chain c k n = Ok r /\
    (is_Some r <->
     exists e, e ∈ chain_entries c /\ holds_key (firstn (Z.to_nat n) k) n e) /\
    (forall d, r = Some d ->
       exists pre e post,
         chain_entries c = pre ++ e :: post /\
         Forall (fun e' => ~ holds_key (firstn (Z.to_nat n) k) n e') pre /\
         holds_key (firstn (Z.to_nat n) k) n e /\
         v e = d).
Proof.
  intros [Hterm Hwf] Hlen.
  induction c as [|e next IH|]; cbn [terminated chain_entries] in *.
  - exists None. split; [reflexivity|]. split.
    + split; [intros [? H]; discriminate|].
      intros (e & He & _). apply elem_of_nil in He. contradiction.
    + discriminate.
  - apply Forall_cons in Hwf as [He Hwf].
    destruct (IH Hterm Hwf) as (r & Hr & Hsome & Hfirst).
    destruct (same_key_holds e k n He Hlen) as (hit & Hhit & Hiff).
    cbn [find_chain]. rewrite Hhit. cbn [bind].
    destruct hit.
    + exists (Some (v e)). split; [reflexivity|].
      assert (holds_key (firstn (Z.to_nat n) k) n e) as Hk by (apply Hiff; reflexivity).
      split.
      * split; [|eauto]. intros _. exists e. split; [left|exact Hk].
      * intros d [= <-]. exists [], e, (chain_entries next).
        repeat split; try apply Hk. constructor.
    + assert (~ holds_key (firstn (Z.to_nat n) k) n e) as Hk.
      { intros H. apply Hiff in H. discriminate. }
      exists r. split; [exact Hr|]. split.
      * rewrite Hsome. split.
        -- intros (e' & He' & Hk'). exists e'. split; [right; exact He' | exact Hk'].
        -- intros (e' & He' & Hk'). apply elem_of_cons in He' as [-> | He'];
             [contradiction | eauto].
      * intros d Hd. destruct (Hfirst d Hd) as (pre & e' & post & E & Hpre & Hk' & Hv).
        exists (e :: pre), e', post. rewrite E.
        repeat split; try apply Hk'; try exact Hv.
        constructor; assumption.
  - contradiction.
Qed.

(** C7.  On a table with sound chains and a key buffer of at least
    [keysize] bytes, [findInHashTable] returns a descriptor exactly when some
    entry of the chain of the key's bucket has [key_size = keysize] and the
    key's bytes, and then it is the descriptor of the first such entry;
    otherwise it returns null.  An entry of another [key_size] is never the
    one returned.  The function has no other result than this pointer: it
    stores nothing. *)
Theorem findInHashTable_exact (signed : bool) (ht : HashTable)
    (buckets : list chain) (key : list byte) (keysize : Z) :
  table_wf ht buckets ->
  keysize <= blen key ->
  let bytes := firstn (Z.to_nat keysize) key in
  exists head r,
    buckets !! Z.to_nat (char_hash signed bytes mod capacity ht) = Some head /\
    findInHashTable signed (Some ht) key keysize = Ok r /\
    (is_Some r <->
     exists e, e ∈ chain_entries head /\ holds_key bytes keysize e) /\
    (forall d, r = Some d ->
       exists pre e post,
         chain_entries head = pre ++ e :: post /\
         Forall (fun e' => ~ holds_key bytes keysize e') pre /\
         holds_key bytes keysize e /\ v e = d) /\
    ((forall e, e ∈ chain_entries head -> key_size e <> keysize) -> r = None).
Proof.
  intros (Htable & Hcap & Hpos & Hwf) Hlen bytes.
  pose proof (Z.mod_pos_bound (char_hash signed bytes) (capacity ht) Hpos) as Hrange.
  destruct (lookup_lt_is_Some_2 buckets
              (Z.to_nat (char_hash signed bytes mod capacity ht))) as [head Hhead].
  { unfold blen in Hcap. lia. }
  assert (chain_wf head) as Hhwf.
  { rewrite Forall_forall in Hwf. apply Hwf. eapply list_elem_of_lookup_2; eauto. }
  destruct (find_chain_first head key keysize Hhwf Hlen) as (r & Hr & Hsome & Hfirst).
  exists head, r. split; [exact Hhead|]. split.
  { unfold findInHashTable. rewrite Htable.
    rewrite bucket_of_char_hash by lia. cbn [bind]. fold bytes.
    apply bucket_Ok in Hhead. rewrite Hhead. exact Hr. }
  split; [exact Hsome|]. split.
  { exact Hfirst. }
  intros Hne. destruct r as [d|]; [|reflexivity].
  destruct Hsome as [Hsome _].
  destruct Hsome as (e & He & Hn & _); [eauto|].
  exfalso. exact (Hne e He Hn).
Qed.

Lemma findInHashTable_exact_witness :
  let ab := mkHashTableEntry (Some ["a"%byte; "b"%byte]) 2
              (mkHashValue (Some [Some "X"%byte]) 1) in
  let a := mkHashTableEntry (Some ["a"%byte]) 1
              (mkHashValue (Some [Some "Y"%byte]) 1) in
  let buckets := [Node ab (Node a NULL)] in
  let ht := mkHashTable 1 2 (Some buckets) in
  findInHashTable true (Some ht) ["a"%byte] 1 = Ok (Some (v a)) /\
  exists head r,
    buckets !! Z.to_nat (char_hash true ["a"%byte] mod 1) = Some head /\
    findInHashTable true (Some ht) ["a"%byte] 1 = Ok r /\
    (is_Some r <->
     exists e, e ∈ chain_entries head /\ holds_key ["a"%byte] 1 e) /\
    (forall d, r = Some d ->
       exists pre e post,
         chain_entries head = pre ++ e :: post /\
         Forall (fun e' => ~ holds_key ["a"%byte] 1 e') pre /\
         holds_key ["a"%byte] 1 e /\ v e = d) /\
    ((forall e, e ∈ chain_entries head -> key_size e <> 1) -> r = None).
Proof.
  intros ab a buckets ht. split; [reflexivity|].
  apply (findInHashTable_exact true ht buckets ["a"%byte] 1).
  - unfold table_wf. split; [reflexivity|]. split; [reflexivity|].
    split; [reflexivity|].
    repeat constructor.
  - vm_compute. congruence.
Defined.

(** ** insertInHashTable *)

Lemma chain_app_cons (e : HashTableEntry) (pre : list HashTableEntry) (c : chain) :
  chain_app (e :: pre) c = Node e (chain_app pre c).
Proof. reflexivity. Qed.

Lemma chain_entries_app (pre : list HashTableEntry) (c : chain) :
  chain_entries (chain_app pre c) = pre ++ chain_entries c.
Proof.
  induction pre as [|e pre IH]; cbn; [reflexivity | rewrite <- IH; reflexivity].
Qed.

Lemma new_entry_Ok (key : list byte) (keysize : Z) (value : list byte)
    (valuesize : Z) (o o' : oracle) (e : HashTableEntry) :
  new_entry key keysize value valuesize o = Ok (e, o') ->
  keysize <= blen key /\ valuesize <= blen value /\
  e = mkHashTableEntry (Some (firstn (Z.to_nat keysize) key)) keysize
        (mkHashValue (Some (map Some (firstn (Z.to_nat valuesize) value)))
           valuesize).
Proof.
  unfold new_entry, memcpy.
  destruct (MALLOC sizeof_HashTableEntry o) as [[] o1]; cbn [negb]; [|discriminate].
  destruct (MALLOC keysize o1) as [[] o2]; destruct (MALLOC valuesize o2) as [[] o3];
    cbn [negb]; try discriminate.
  - destruct (Z.leb_spec keysize (blen key)); cbn [bind]; [|discriminate].
    destruct (Z.leb_spec valuesize (blen value)); cbn [bind]; [|discriminate].
    intros [= <- <-]. auto.
  - destruct (Z.leb_spec keysize (blen key)); cbn [bind]; discriminate.
Qed.

(** What a defined run of the scan did: it either took the first entry
    whose bytes compare equal and grew at most its value buffer, or passed
    every entry of a null-terminated chain and linked a fresh one after the
    last. *)
Lemma insert_chain_Ok (c : chain) (key : list byte) (keysize : Z)
    (value : list byte) (valuesize : Z) :
  forall (o o' : oracle) (c' : chain) (counted : bool),
    insert_chain c key keysize value valuesize o = Ok (c', counted, o') ->
    (counted = false /\
     exists pre e post,
       c = chain_app pre (Node e post) /\
       Forall (passed_for key keysize) pre /\
       taken_for key keysize e /\
       c' = chain_app pre (Node (fst (overwrite e valuesize o)) post) /\
       o' = snd (overwrite e valuesize o))
    \/
    (counted = true /\
     exists e,
       c = chain_app (chain_entries c) NULL /\
       Forall (passed_for key keysize) (chain_entries c) /\
       new_entry key keysize value valuesize o = Ok (e, o') /\
       c' = chain_app (chain_entries c) (Node e NULL)).
Proof.
  induction c as [|e next IH|]; intros o o' c' counted H; cbn [insert_chain] in H.
  - right. destruct (new_entry key keysize value valuesize o) as [[e o1]|] eqn:E;
      cbn [bind] in H; [|discriminate].
    injection H as <- <- <-. split; [reflexivity|].
    exists e. cbn. repeat split; constructor.
  - destruct (same_bytes e key keysize) as [hit|] eqn:Ehit; cbn [bind] in H;
      [|discriminate].
    destruct hit.
    + left. destruct (overwrite e valuesize o) as [e' o1] eqn:Eo.
      injection H as <- <- <-. split; [reflexivity|].
      exists [], e, next. cbn. rewrite Eo. repeat split; try constructor.
      exact Ehit.
    + destruct (insert_chain next key keysize value valuesize o)
        as [[[next' cnt] o1]|] eqn:Erec; cbn [bind] in H; [|discriminate].
      injection H as <- <- <-.
      destruct (IH _ _ _ _ Erec) as [(-> & pre & e0 & post & -> & Hpre & Hhit & -> & ->)
                                    | (-> & e0 & Hc & Hpre & Hnew & ->)].
      * left. split; [reflexivity|]. exists (e :: pre), e0, post.
        cbn. repeat split; try assumption. constructor; assumption.
      * right. split; [reflexivity|]. exists e0. cbn [chain_entries].
        repeat split; try assumption.
        -- rewrite chain_app_cons, <- Hc. reflexivity.
        -- constructor; assumption.
  - discriminate.
Qed.

Lemma insertInHashTable_Ok (signed : bool) (ht : HashTable) (key : list byte)
    (keysize : Z) (value : list byte) (valuesize : Z) (o o' : oracle) (ret : Z)
    (ht' : option HashTable) :
  insertInHashTable signed (Some ht) key keysize value valuesize o
  = Ok (ret, ht', o') ->
  (table ht = None /\ ret = -1 /\ ht' = Some ht /\ o' = o)
  \/
  (exists buckets hash head head' counted,
      table ht = Some buckets /\
      bucket_of signed ht key keysize = Ok hash /\
      buckets !! Z.to_nat hash = Some head /\
      insert_chain head key keysize value valuesize o = Ok (head', counted, o') /\
      ret = 0 /\
      ht' = Some (mkHashTable (capacity ht)
                    (if counted then u32 (size ht + 1) else size ht)
                    (Some (<[Z.to_nat hash := head']> buckets)))).
Proof.
  unfold insertInHashTable. destruct (table ht) as [buckets|].
  - intros H. right.
    destruct (bucket_of signed ht key keysize) as [hash|]; cbn [bind] in H;
      [|discriminate].
    destruct (bucket buckets hash) as [head|] eqn:Hb; cbn [bind] in H;
      [|discriminate].
    apply bucket_Ok in Hb.
    assert (match head with
            | NULL =>
                let* fresh := new_entry key keysize value valuesize o in
                let '(e, o1) := fresh in Ok (Node e NULL, true, o1)
            | _ => insert_chain head key keysize value valuesize o
            end = insert_chain head key keysize value valuesize o) as E
        by (destruct head; reflexivity).
    rewrite E in H. clear E.
    destruct (insert_chain head key keysize value valuesize o)
      as [[[head' counted] o1]|] eqn:Hscan; cbn [bind] in H; [|discriminate].
    injection H as <- <- <-.
    exists buckets, hash, head, head', counted. auto 10.
  - intros [= <- <- <-]. left. auto.
Qed.

Lemma overwrite_key_of (e : HashTableEntry) (valuesize : Z) (o : oracle) :
  key_of (fst (overwrite e valuesize o)) = key_of e.
Proof.
  unfold overwrite. destruct (value_size (v e) <? valuesize); [|reflexivity].
  destruct (REALLOC (value (v e)) valuesize o) as [[buf|] o1]; reflexivity.
Qed.

Lemma overwrite_not_longer (e : HashTableEntry) (valuesize : Z) (o : oracle) :
  valuesize <= value_size (v e) -> overwrite e valuesize o = (e, o).
Proof.
  intros H. unfold overwrite.
  destruct (Z.ltb_spec (value_size (v e)) valuesize); [lia | reflexivity].
Qed.

(** ** Size bookkeeping *)

(** C4, counterexample.  A successful call that finds its key in the chain
    leaves [size] as it was. *)
Lemma insertInHashTable_again_keeps_size :
  let ht := mkHashTable 1 1
              (Some [Node (mkHashTableEntry (Some ["k"%byte]) 1
                             (mkHashValue (Some [Some "v"%byte]) 1)) NULL]) in
  exists ht' : HashTable,
    insertInHashTable true (Some ht) ["k"%byte] 1 ["w"%byte] 1 []
    = Ok (0, Some ht', []) /\
    size ht' = 1 /\
    size ht' <> u32 (size ht + 1).
Proof.
  intros ht. eexists. split; [vm_compute; reflexivity|].
  vm_compute. split; congruence.
Qed.

(** C4 (as the code has it).  A successful [insertInHashTable] call
    increments [size] by one, modulo [2^32], exactly when its scan passes
    every entry of the bucket's chain and links a new one; when the scan
    takes an entry for the key the call returns before the increment, so
    [size] and the number of entries stay as they were.  No
    [removeFromHashTable] call changes [size]. *)
Theorem size_bookkeeping (signed : bool) (ht : HashTable) (key : list byte)
    (keysize : Z) (value : list byte) (valuesize : Z) (o : oracle) :
  (forall (ht' : HashTable) (o' : oracle),
      insertInHashTable signed (Some ht) key keysize value valuesize o
      = Ok (0, Some ht', o') ->
      exists buckets hash head head',
        table ht = Some buckets /\
        bucket_of signed ht key keysize = Ok hash /\
        buckets !! Z.to_nat hash = Some head /\
        table ht' = Some (<[Z.to_nat hash := head']> buckets) /\
        ((Exists (taken_for key keysize) (chain_entries head) /\
          size ht' = size ht /\
          length (chain_entries head') = length (chain_entries head))
         \/
         (Forall (passed_for key keysize) (chain_entries head) /\
          size ht' = u32 (size ht + 1) /\
          exists e, chain_entries head' = chain_entries head ++ [e])))
  /\
  (forall ht' : option HashTable,
      removeFromHashTable signed (Some ht) key keysize = Ok ht' ->
      exists ht1, ht' = Some ht1 /\ size ht1 = size ht).
Proof.
  split.
  - intros ht' o' H.
    apply insertInHashTable_Ok in H
      as [(_ & Hret & _) | (buckets & hash & head & head' & counted & Ht & Hh
                            & Hb & Hscan & _ & Hht')]; [discriminate|].
    injection Hht' as ->.
    exists buckets, hash, head, head'. cbn [table size].
    repeat split; try assumption.
    apply insert_chain_Ok in Hscan
      as [(-> & pre & e & post & -> & Hpre & Hhit & -> & _)
         | (-> & e & Hc & Hpre & Hnew & ->)].
    + left. rewrite !chain_entries_app. cbn [chain_entries].
      split; [|split; [reflexivity|]].
      * apply Exists_app. right. left. exact Hhit.
      * rewrite !length_app. reflexivity.
    + right. split; [exact Hpre|]. split; [reflexivity|].
      exists e. rewrite chain_entries_app. reflexivity.
  - intros ht' H. unfold removeFromHashTable in H.
    destruct (table ht) as [buckets|].
    + destruct (bucket_of signed ht key keysize) as [hash|]; cbn [bind] in H;
        [|discriminate].
      destruct (bucket buckets hash) as [head|]; cbn [bind] in H; [|discriminate].
      destruct (remove_chain head false key keysize) as [head'|]; cbn [bind] in H;
        [|discriminate].
      injection H as <-. eexists. split; reflexivity.
    + injection H as <-. eexists. split; reflexivity.
Qed.

Lemma size_bookkeeping_witness :
  let k := mkHashTableEntry (Some ["k"%byte]) 1
             (mkHashValue (Some [Some "v"%byte]) 1) in
  let ht := mkHashTable 1 1 (Some [Node k NULL]) in
  (exists buckets hash head head',
      table ht = Some buckets /\
      bucket_of true ht ["j"%byte] 1 = Ok hash /\
      buckets !! Z.to_nat hash = Some head /\
      Some [Node k (Node (mkHashTableEntry (Some ["j"%byte]) 1
                            (mkHashValue (Some [Some "w"%byte]) 1)) NULL)]
      = Some (<[Z.to_nat hash := head']> buckets) /\
      ((Exists (taken_for ["j"%byte] 1) (chain_entries head) /\
        2 = size ht /\
        length (chain_entries head') = length (chain_entries head))
       \/
       (Forall (passed_for ["j"%byte] 1) (chain_entries head) /\
        2 = u32 (size ht + 1) /\
        exists e, chain_entries head' = chain_entries head ++ [e])))
  /\
  (exists ht1, removeFromHashTable true (Some ht) ["k"%byte] 1 = Ok (Some ht1)
               /\ size ht1 = size ht).
Proof.
  intros k ht.
  destruct (size_bookkeeping true ht ["j"%byte] 1 ["w"%byte] 1 []) as [Hins _].
  destruct (size_bookkeeping true ht ["k"%byte] 1 [] 0 []) as [_ Hrem].
  split.
  - exact (Hins _ [] eq_refl).
  - destruct (Hrem _ eq_refl) as (ht1 & E & Hs).
    exists ht1. split; [rewrite <- E; reflexivity | exact Hs].
Defined.

(** ** Uniqueness of keys *)

Lemma same_bytes_own (e : HashTableEntry) (k : list byte) (n : Z) :
  n <= blen k ->
  key e = Some (firstn (Z.to_nat n) k) ->
  same_bytes e k n = Ok true.
Proof.
  intros Hlen Hkey. unfold same_bytes. rewrite Hkey.
  destruct (memcmp_zero (firstn (Z.to_nat n) k) k n) as (r & -> & Hr).
  - unfold blen in *. rewrite length_firstn. lia.
  - exact Hlen.
  - cbn [bind]. f_equal. apply Z.eqb_eq, Hr.
    rewrite firstn_firstn. f_equal. lia.
Qed.

Lemma insert_chain_unique (c c' : chain) (k : list byte) (n : Z)
    (value : list byte) (valuesize : Z) (o o' : oracle) (counted : bool) :
  chain_unique c ->
  insert_chain c k n value valuesize o = Ok (c', counted, o') ->
  chain_unique c'.
Proof.
  unfold chain_unique. intros Hu H.
  apply insert_chain_Ok in H
    as [(-> & pre & e & post & -> & Hpre & Hhit & -> & _)
       | (-> & e & Hc & Hpre & Hnew & ->)].
  - rewrite chain_entries_app in *. cbn [chain_entries] in *.
    rewrite map_app in *. cbn [map] in *.
    rewrite overwrite_key_of. exact Hu.
  - rewrite chain_entries_app. cbn [chain_entries].
    rewrite map_app. cbn [map].
    apply NoDup_app. split; [exact Hu|]. split; [|apply NoDup_singleton].
    intros x Hx Hx'. apply list_elem_of_singleton in Hx'. subst x.
    apply list_elem_of_fmap in Hx as (e0 & Heq & He0).
    apply new_entry_Ok in Hnew as (Hlen & _ & ->).
    rewrite Forall_forall in Hpre. specialize (Hpre e0 He0).
    unfold key_of in Heq. cbn [key key_size] in Heq. injection Heq as _ Hk.
    unfold passed_for in Hpre.
    rewrite (same_bytes_own e0 k n Hlen) in Hpre by congruence.
    discriminate.
Qed.

Lemma insertInHashTable_unique (signed : bool) (ht : HashTable)
    (buckets : list chain) (key : list byte) (keysize : Z) (value : list byte)
    (valuesize : Z) (o o' : oracle) (ret : Z) (res : option HashTable) :
  table ht = Some buckets ->
  Forall chain_unique buckets ->
  insertInHashTable signed (Some ht) key keysize value valuesize o
  = Ok (ret, res, o') ->
  exists ht' buckets',
    res = Some ht' /\ table ht' = Some buckets' /\ Forall chain_unique buckets'.
Proof.
  intros Ht Hu H.
  apply insertInHashTable_Ok in H
    as [(Hnone & _) | (bs & hash & head & head' & counted & Ht' & _ & Hb
                       & Hscan & _ & ->)]; [congruence|].
  rewrite Ht in Ht'. injection Ht' as <-.
  eexists _, _. split; [reflexivity|]. split; [reflexivity|].
  apply Forall_insert; [exact Hu|].
  eapply insert_chain_unique; [|exact Hscan].
  rewrite Forall_forall in Hu. apply Hu. eapply list_elem_of_lookup_2; eauto.
Qed.

Lemma insert_all_unique (signed : bool) (calls : list insertion) :
  forall (ht : HashTable) (buckets : list chain) (o o' : oracle)
         (res : option HashTable),
    table ht = Some buckets ->
    Forall chain_unique buckets ->
    insert_all signed (Some ht) calls o = Ok (res, o') ->
    exists ht' buckets',
      res = Some ht' /\ table ht' = Some buckets' /\ Forall chain_unique buckets'.
Proof.
  induction calls as [|c calls IH]; intros ht buckets o o' res Ht Hu H;
    cbn [insert_all] in H.
  - injection H as <- <-. eauto.
  - destruct (insertInHashTable signed (Some ht) (ins_key c) (ins_keysize c)
                (ins_value c) (ins_valuesize c) o) as [[[ret mid] o1]|] eqn:E;
      cbn [bind] in H; [|discriminate].
    destruct (insertInHashTable_unique _ _ _ _ _ _ _ _ _ _ _ Ht Hu E)
      as (ht1 & bs1 & -> & Ht1 & Hu1).
    exact (IH _ _ _ _ _ Ht1 Hu1 H).
Qed.

(** C8.  Whatever the capacity, the allocator and the calls, when
    [createHashTable] returns a table and the [insertInHashTable] calls made
    on it run to their end, no chain of the table holds two entries with the
    same key size and the same key bytes. *)
Theorem inserts_keep_keys_unique (signed : bool) (size : Z)
    (calls : list insertion) (o o1 o2 : oracle) (ht : HashTable)
    (res : option HashTable) :
  createHashTable size o = (Some ht, o1) ->
  insert_all signed (Some ht) calls o1 = Ok (res, o2) ->
  exists ht' buckets,
    res = Some ht' /\ table ht' = Some buckets /\
    Forall chain_unique buckets /\
    (forall c i j e1 e2,
        c ∈ buckets ->
        chain_entries c !! i = Some e1 ->
        chain_entries c !! j = Some e2 ->
        key_size e1 = key_size e2 -> key e1 = key e2 -> i = j).
Proof.
  intros Hc Hrun.
  assert (exists buckets, table ht = Some buckets /\ Forall chain_unique buckets)
    as (buckets & Ht & Hu).
  { unfold createHashTable in Hc.
    destruct (MALLOC sizeof_HashTable o) as [[] oa]; cbn [negb] in Hc;
      [|discriminate].
    destruct (MALLOC _ oa) as [[] ob]; cbn [negb] in Hc; [|discriminate].
    injection Hc as <- _. eexists. split; [reflexivity|].
    apply Forall_forall. intros c Hin. apply list_elem_of_In in Hin.
    apply repeat_spec in Hin. subst c. constructor. }
  destruct (insert_all_unique signed calls ht buckets o1 o2 res Ht Hu Hrun)
    as (ht' & buckets' & -> & Ht' & Hu').
  exists ht', buckets'. repeat split; try assumption.
  intros c i j e1 e2 Hin H1 H2 Hs Hk.
  rewrite Forall_forall in Hu'. specialize (Hu' c Hin).
  unfold chain_unique in Hu'. rewrite NoDup_alt in Hu'.
  apply (Hu' i j (key_of e1)).
  - rewrite list_lookup_fmap, H1. reflexivity.
  - rewrite list_lookup_fmap, H2. cbn. unfold key_of. congruence.
Qed.

Lemma inserts_keep_keys_unique_witness :
  let calls := [mkInsertion ["k"%byte] 1 ["v"%byte; "1"%byte] 2;
                mkInsertion ["j"%byte] 1 ["w"%byte] 1;
                mkInsertion ["k"%byte] 1 ["z"%byte; "z"%byte] 2] in
  exists res o2,
    createHashTable 1 [] = (Some (mkHashTable 1 0 (Some [NULL])), []) /\
    insert_all true (Some (mkHashTable 1 0 (Some [NULL]))) calls [] = Ok (res, o2) /\
    exists ht' buckets,
      res = Some ht' /\ table ht' = Some buckets /\
      Forall chain_unique buckets /\
      (forall c i j e1 e2,
          c ∈ buckets ->
          chain_entries c !! i = Some e1 ->
          chain_entries c !! j = Some e2 ->
          key_size e1 = key_size e2 -> key e1 = key e2 -> i = j).
Proof.
  intros calls. eexists _, _.
  split; [reflexivity|].
  split; [vm_compute; reflexivity|].
  eapply (inserts_keep_keys_unique true 1 calls [] [] []);
    [reflexivity | vm_compute; reflexivity].
Defined.

(** ** Overwriting with a value that is not longer *)

Lemma insert_chain_taken (pre : list HashTableEntry) (e : HashTableEntry)
    (post : chain) (k : list byte) (n : Z) (value : list byte) (valuesize : Z)
    (o : oracle) :
  Forall (passed_for k n) pre ->
  taken_for k n e ->
  insert_chain (chain_app pre (Node e post)) k n value valuesize o =
  Ok (chain_app pre (Node (fst (overwrite e valuesize o)) post), false,
      snd (overwrite e valuesize o)).
Proof.
  intros Hpre Hhit. induction Hpre as [|e0 pre He0 Hpre IH].
  - cbn. unfold taken_for in Hhit. rewrite Hhit. cbn [bind].
    destruct (overwrite e valuesize o); reflexivity.
  - rewrite chain_app_cons. cbn [insert_chain].
    unfold passed_for in He0. rewrite He0. cbn [bind].
    rewrite IH. reflexivity.
Qed.

(** C10.  When the scan of [insertInHashTable] takes an entry of the bucket's
    chain for the key (it passed the entries before it, and this one's bytes
    compare equal over [keysize] bytes) and [valuesize] is at most the
    entry's [value_size], the call returns 0 and the whole table object,
    hence the entry's value bytes, its [value_size] and [size], is what it
    was; no allocation is made and [value] is not read. *)
Theorem insertInHashTable_not_longer_noop (signed : bool) (ht : HashTable)
    (buckets : list chain) (key : list byte) (keysize : Z) (value : list byte)
    (valuesize : Z) (o : oracle) (hash : Z) (pre : list HashTableEntry)
    (e : HashTableEntry) (post : chain) :
  table ht = Some buckets ->
  bucket_of signed ht key keysize = Ok hash ->
  buckets !! Z.to_nat hash = Some (chain_app pre (Node e post)) ->
  Forall (passed_for key keysize) pre ->
  taken_for key keysize e ->
  valuesize <= value_size (v e) ->
  insertInHashTable signed (Some ht) key keysize value valuesize o
  = Ok (0, Some ht, o).
Proof.
  intros Ht Hh Hb Hpre Hhit Hsize.
  unfold insertInHashTable. rewrite Ht, Hh. cbn [bind].
  apply bucket_Ok in Hb as Hb'. rewrite Hb'. cbn [bind].
  assert (match chain_app pre (Node e post) with
          | NULL =>
              let* fresh := new_entry key keysize value valuesize o in
              let '(e, o1) := fresh in Ok (Node e NULL, true, o1)
          | _ => insert_chain (chain_app pre (Node e post)) key keysize value
                   valuesize o
          end = Ok (chain_app pre (Node e post), false, o)) as ->.
  { transitivity (insert_chain (chain_app pre (Node e post)) key keysize value
                    valuesize o); [destruct pre; reflexivity|].
    rewrite insert_chain_taken by assumption.
    rewrite overwrite_not_longer by exact Hsize. reflexivity. }
  cbn [bind]. rewrite list_insert_id by exact Hb.
  destruct ht as [cap sz tbl]. cbn in *. subst tbl. reflexivity.
Qed.

Lemma insertInHashTable_not_longer_noop_witness :
  let ht := mkHashTable 1 2
              (Some [Node (entry_of ["j"%byte] ["w"%byte])
                       (Node (entry_of ["k"%byte] ["v"%byte; "1"%byte]) NULL)]) in
  insertInHashTable true (Some ht) ["k"%byte] 1 ["z"%byte] 1 [false]
  = Ok (0, Some ht, [false]).
Proof.
  intros ht.
  apply (insertInHashTable_not_longer_noop true ht
           [Node (entry_of ["j"%byte] ["w"%byte])
              (Node (entry_of ["k"%byte] ["v"%byte; "1"%byte]) NULL)]
           ["k"%byte] 1 ["z"%byte] 1 [false] 0
           [entry_of ["j"%byte] ["w"%byte]]
           (entry_of ["k"%byte] ["v"%byte; "1"%byte]) NULL).
  - reflexivity.
  - reflexivity.
  - reflexivity.
  - constructor; [reflexivity | constructor].
  - reflexivity.
  - vm_compute. congruence.
Defined.

(** ** Tables built by the interface are sound *)

Lemma terminated_app (pre : list HashTableEntry) (c : chain) :
  terminated (chain_app pre c) <-> terminated c.
Proof. induction pre as [|e pre IH]; cbn; [tauto | exact IH]. Qed.

Lemma entry_wf_key_of (e e' : HashTableEntry) :
  key_of e = key_of e' -> entry_wf e -> entry_wf e'.
Proof.
  unfold key_of, entry_wf. intros [= Hs Hk]. rewrite Hs, Hk. tauto.
Qed.

Lemma createHashTable_table_wf (size : Z) (o o' : oracle) (ht : HashTable) :
  0 < size < 2 ^ 31 ->
  createHashTable size o = (Some ht, o') ->
  exists buckets, table_wf ht buckets.
Proof.
  intros Hsize H. unfold createHashTable in H.
  destruct (MALLOC sizeof_HashTable o) as [[] oa]; cbn [negb] in H; [|discriminate].
  destruct (MALLOC _ oa) as [[] ob]; cbn [negb] in H; [|discriminate].
  injection H as <- _. eexists. unfold table_wf. cbn [table capacity].
  split; [reflexivity|].
  rewrite u32_small by lia. unfold blen. rewrite repeat_length.
  split; [lia|]. split; [lia|].
  apply Forall_forall. intros c Hin. apply list_elem_of_In in Hin.
  apply repeat_spec in Hin. subst c. split; [exact I | constructor].
Qed.

Lemma insert_chain_wf (c c' : chain) (k : list byte) (n : Z)
    (value : list byte) (valuesize : Z) (o o' : oracle) (counted : bool) :
  0 <= n ->
  chain_wf c ->
  insert_chain c k n value valuesize o = Ok (c', counted, o') ->
  chain_wf c'.
Proof.
  unfold chain_wf. intros Hn [Hterm Hwf] H.
  apply insert_chain_Ok in H
    as [(-> & pre & e & post & -> & _ & _ & -> & _)
       | (-> & e & _ & _ & Hnew & ->)].
  - rewrite terminated_app in *. cbn [terminated] in *.
    rewrite chain_entries_app in *. cbn [chain_entries] in *.
    split; [exact Hterm|].
    apply Forall_app in Hwf as [Hpre Hrest].
    apply Forall_cons in Hrest as [He Hpost].
    apply Forall_app. split; [exact Hpre|].
    constructor; [|exact Hpost].
    apply (entry_wf_key_of e); [|exact He].
    symmetry. apply overwrite_key_of.
  - rewrite terminated_app, chain_entries_app. cbn [terminated chain_entries].
    split; [exact I|].
    apply Forall_app. split; [exact Hwf|].
    constructor; [|constructor].
    apply new_entry_Ok in Hnew as (Hlen & _ & ->).
    unfold entry_wf, blen in *. cbn [key key_size].
    rewrite length_firstn. lia.
Qed.

Lemma insertInHashTable_table_wf (signed : bool) (ht : HashTable)
    (buckets : list chain) (k : list byte) (n : Z) (value : list byte)
    (valuesize : Z) (o o' : oracle) (ret : Z) (res : option HashTable) :
  0 <= n ->
  table_wf ht buckets ->
  insertInHashTable signed (Some ht) k n value valuesize o = Ok (ret, res, o') ->
  exists ht' buckets', res = Some ht' /\ table_wf ht' buckets'.
Proof.
  intros Hn (Ht & Hcap & Hpos & Hwf) H.
  apply insertInHashTable_Ok in H
    as [(Hnone & _) | (bs & hash & head & head' & counted & Ht' & _ & Hb
                       & Hscan & _ & ->)]; [congruence|].
  rewrite Ht in Ht'. injection Ht' as <-.
  eexists _, _. split; [reflexivity|].
  unfold table_wf. cbn [table capacity].
  split; [reflexivity|].
  unfold blen in *. rewrite length_insert.
  split; [exact Hcap|]. split; [exact Hpos|].
  apply Forall_insert; [exact Hwf|].
  eapply insert_chain_wf; [exact Hn| |exact Hscan].
  rewrite Forall_forall in Hwf. apply Hwf. eapply list_elem_of_lookup_2; eauto.
Qed.

(** ** What removeFromHashTable leaves behind *)

(** Removing an entry that has a predecessor: the chain keeps its entries
    up to the removed one and ends in a pointer to the freed node. *)
Lemma remove_chain_with_predecessor (pre : list HashTableEntry)
    (e : HashTableEntry) (post : chain) (has_prev : bool) (k : list byte) (n : Z) :
  pre <> [] ->
  Forall (fun e' => same_key e' k n = Ok false) pre ->
  same_key e k n = Ok true ->
  remove_chain (chain_app pre (Node e post)) has_prev k n
  = Ok (chain_app pre Dangling).
Proof.
  intros Hne Hpre Hhit. revert has_prev.
  induction Hpre as [|e0 pre He0 Hpre IH]; intros has_prev; [contradiction|].
  rewrite !chain_app_cons. cbn [remove_chain]. rewrite He0. cbn [bind].
  destruct pre as [|e1 pre].
  - cbn. rewrite Hhit. reflexivity.
  - rewrite IH by discriminate. reflexivity.
Qed.

(** A lookup that passes every entry before a dangling pointer reads the
    freed node. *)
Lemma find_chain_dangling (pre : list HashTableEntry) (k : list byte) (n : Z) :
  Forall (fun e' => same_key e' k n = Ok false) pre ->
  find_chain (chain_app pre Dangling) k n = Undefined UseAfterFree.
Proof.
  induction 1 as [|e0 pre He0 Hpre IH]; [reflexivity|].
  rewrite chain_app_cons. cbn [find_chain]. rewrite He0. exact IH.
Qed.

(** ** Where the code departs from its contract *)

(** C1.  Three keys chained in one bucket, then the middle one removed: the
    first entry's [next] still points at the freed node, [size] is still 3,
    and looking up the removed key or the key behind it walks into the
    freed node.  Removing the head unlinks it, and [size] stays. *)
Theorem removeFromHashTable_leaves_freed_node_linked (signed : bool) :
  let a := entry_of ["a"%byte] ["A"%byte] in
  let b := entry_of ["b"%byte] ["B"%byte] in
  let c := entry_of ["c"%byte] ["C"%byte] in
  let full := mkHashTable 1 3 (Some [Node a (Node b (Node c NULL))]) in
  let after := mkHashTable 1 3 (Some [Node a Dangling]) in
  createHashTable 1 [] = (Some one_bucket, []) /\
  insert_all signed (Some one_bucket)
    [call_of ["a"%byte] ["A"%byte]; call_of ["b"%byte] ["B"%byte];
     call_of ["c"%byte] ["C"%byte]] []
  = Ok (Some full, []) /\
  removeFromHashTable signed (Some full) ["b"%byte] 1 = Ok (Some after) /\
  size after = size full /\
  findInHashTable signed (Some after) ["b"%byte] 1 = Undefined UseAfterFree /\
  findInHashTable signed (Some after) ["c"%byte] 1 = Undefined UseAfterFree /\
  findInHashTable signed (Some after) ["a"%byte] 1 = Ok (Some (v a)) /\
  removeFromHashTable signed (Some full) ["a"%byte] 1
  = Ok (Some (mkHashTable 1 3 (Some [Node b (Node c NULL)]))).
Proof. destruct signed; vm_compute; repeat split; reflexivity. Qed.

(** C2.  A key stored with the value "v1" and inserted again: with "zz" the
    call returns 0 and the table is what it was; with "value2" the buffer
    grows to six bytes of which the first two are still "v1" and the rest
    were never written.  [size] stays 1 in both cases. *)
Theorem insertInHashTable_existing_key_keeps_old_bytes (signed : bool) :
  let ht := mkHashTable 1 1
              (Some [Node (entry_of ["k"%byte] ["v"%byte; "1"%byte]) NULL]) in
  let value2 := ["v"%byte; "a"%byte; "l"%byte; "u"%byte; "e"%byte; "2"%byte] in
  let grown :=
    mkHashValue (Some [Some "v"%byte; Some "1"%byte; None; None; None; None]) 6 in
  insertInHashTable signed (Some ht) ["k"%byte] 1 ["z"%byte; "z"%byte] 2 []
  = Ok (0, Some ht, []) /\
  findInHashTable signed (Some ht) ["k"%byte] 1
  = Ok (Some (mkHashValue (Some [Some "v"%byte; Some "1"%byte]) 2)) /\
  insertInHashTable signed (Some ht) ["k"%byte] 1 value2 6 []
  = Ok (0, Some (mkHashTable 1 1
                   (Some [Node (mkHashTableEntry (Some ["k"%byte]) 1 grown) NULL])),
        []) /\
  value grown <> Some (map Some value2).
Proof. destruct signed; vm_compute; repeat split; congruence. Qed.

(** C3.  After inserting "k" with "v1" and then with "zz", the lookup of "k"
    gives "v1".  After inserting "ab" and then "a", whose single byte
    compares equal to the first byte of "ab", no entry for "a" exists and
    its lookup gives null. *)
Theorem insert_then_find_not_last_value (signed : bool) :
  (exists ht,
      insert_all signed (Some one_bucket)
        [call_of ["k"%byte] ["v"%byte; "1"%byte];
         call_of ["k"%byte] ["z"%byte; "z"%byte]] []
      = Ok (Some ht, []) /\
      findInHashTable signed (Some ht) ["k"%byte] 1
      = Ok (Some (mkHashValue (Some [Some "v"%byte; Some "1"%byte]) 2)))
  /\
  (exists ht,
      insert_all signed (Some one_bucket)
        [call_of ["a"%byte; "b"%byte] ["X"%byte];
         call_of ["a"%byte] ["Y"%byte]] []
      = Ok (Some ht, []) /\
      size ht = 1 /\
      findInHashTable signed (Some ht) ["a"%byte] 1 = Ok None).
Proof.
  destruct signed; (split; eexists; (split; [vm_compute; reflexivity|]));
    vm_compute; repeat split; reflexivity.
Qed.

(** C9.  The results of [MALLOC] are used untested: when the node or one of
    the buffers of a new entry cannot be allocated the call dereferences a
    null pointer.  When [REALLOC] fails the entry is kept, and the call
    returns 0 as it does on success. *)
Theorem insertInHashTable_allocation_failure (signed : bool) :
  let ht := mkHashTable 1 1
              (Some [Node (entry_of ["k"%byte] ["v"%byte; "1"%byte]) NULL]) in
  let value2 := ["v"%byte; "a"%byte; "l"%byte; "u"%byte; "e"%byte; "2"%byte] in
  insertInHashTable signed (Some one_bucket) ["k"%byte] 1 ["v"%byte] 1 [false]
  = Undefined NullDeref /\
  insertInHashTable signed (Some one_bucket) ["k"%byte] 1 ["v"%byte] 1
    [true; false; true]
  = Undefined NullDeref /\
  insertInHashTable signed (Some ht) ["j"%byte] 1 ["w"%byte] 1 [true; true; false]
  = Undefined NullDeref /\
  insertInHashTable signed (Some ht) ["k"%byte] 1 value2 6 [false]
  = Ok (0, Some ht, []).
Proof. destruct signed; vm_compute; repeat split; reflexivity. Qed.

(** * Further properties of the operations *)

(** ** Lookups in a table after one bucket was rewritten *)

Lemma passed_same_key (e : HashTableEntry) (k : list byte) (n : Z) :
  passed_for k n e -> same_key e k n = Ok false.
Proof.
  unfold passed_for, same_bytes, same_key. destruct (key e) as [stored|]; [|auto].
  destruct (key_size e =? n); [auto | reflexivity].
Qed.

Lemma Forall_passed_same_key (l : list HashTableEntry) (k : list byte) (n : Z) :
  Forall (passed_for k n) l -> Forall (fun e => same_key e k n = Ok false) l.
Proof.
  induction 1 as [|e l He Hl IH]; constructor; [apply passed_same_key|]; assumption.
Qed.

Lemma same_key_key_of (e e' : HashTableEntry) (k : list byte) (n : Z) :
  key_of e = key_of e' -> same_key e k n = same_key e' k n.
Proof. unfold key_of, same_key. intros [= -> ->]. reflexivity. Qed.

Lemma same_key_own (e : HashTableEntry) (k : list byte) (n : Z) :
  n <= blen k ->
  key e = Some (firstn (Z.to_nat n) k) ->
  key_size e = n ->
  same_key e k n = Ok true.
Proof.
  intros Hlen Hkey Hsize.
  pose proof (same_bytes_own e k n Hlen Hkey) as H.
  unfold same_bytes, same_key in *. rewrite Hkey in *. rewrite Hsize, Z.eqb_refl.
  exact H.
Qed.

Lemma find_chain_app_passed (pre : list HashTableEntry) (c : chain)
    (k : list byte) (n : Z) :
  Forall (fun e => same_key e k n = Ok false) pre ->
  find_chain (chain_app pre c) k n = find_chain c k n.
Proof.
  induction 1 as [|e pre He Hpre IH]; [reflexivity|].
  rewrite chain_app_cons. cbn [find_chain]. rewrite He. exact IH.
Qed.

Lemma findInHashTable_bucket (signed : bool) (ht : HashTable)
    (buckets : list chain) (k : list byte) (n hash : Z) (c : chain) :
  table ht = Some buckets ->
  bucket_of signed ht k n = Ok hash ->
  buckets !! Z.to_nat hash = Some c ->
  findInHashTable signed (Some ht) k n = find_chain c k n.
Proof.
  intros Ht Hh Hb. unfold findInHashTable. rewrite Ht, Hh. cbn [bind].
  apply bucket_Ok in Hb. rewrite Hb. reflexivity.
Qed.

Lemma bucket_of_capacity (signed : bool) (ht ht' : HashTable) (k : list byte)
    (n : Z) :
  capacity ht' = capacity ht ->
  bucket_of signed ht' k n = bucket_of signed ht k n.
Proof. intros H. unfold bucket_of. rewrite H. reflexivity. Qed.

(** The table [ht] with the chain of bucket [i] replaced and [size] set. *)
Lemma findInHashTable_rewritten_bucket (signed : bool) (ht : HashTable)
    (buckets : list chain) (sz : Z) (i : nat) (c : chain) (k : list byte)
    (n hash : Z) :
  bucket_of signed ht k n = Ok hash ->
  Z.to_nat hash = i ->
  (i < length buckets)%nat ->
  findInHashTable signed
    (Some (mkHashTable (capacity ht) sz (Some (<[i := c]> buckets)))) k n
  = find_chain c k n.
Proof.
  intros Hh Hi Hlt.
  apply (findInHashTable_bucket signed _ (<[i := c]> buckets) k n hash).
  - reflexivity.
  - rewrite <- Hh. apply bucket_of_capacity. reflexivity.
  - rewrite Hi. apply list_lookup_insert_eq. exact Hlt.
Qed.

Lemma findInHashTable_other_bucket (signed : bool) (ht : HashTable)
    (buckets : list chain) (sz : Z) (i : nat) (c : chain) (k : list byte)
    (n hash : Z) :
  table ht = Some buckets ->
  bucket_of signed ht k n = Ok hash ->
  Z.to_nat hash <> i ->
  findInHashTable signed
    (Some (mkHashTable (capacity ht) sz (Some (<[i := c]> buckets)))) k n
  = findInHashTable signed (Some ht) k n.
Proof.
  intros Ht Hh Hi.
  pose proof (bucket_of_capacity signed ht
                (mkHashTable (capacity ht) sz (Some (<[i := c]> buckets))) k n
                eq_refl) as Hh'.
  rewrite Hh in Hh'.
  unfold findInHashTable. rewrite Ht, Hh. cbn [table]. rewrite Hh'.
  cbn [bind]. unfold bucket.
  rewrite list_lookup_insert_ne by congruence. reflexivity.
Qed.

(** ** A new key can be looked up *)

(** X1.  When the scan of [insertInHashTable] passes every entry of the bucket's
    chain, a call that runs to its end returns 0, and a lookup of the key in
    the table it leaves returns the first [valuesize] bytes of [value] with
    the length [valuesize]. *)
Theorem insert_new_key_then_find (signed : bool) (ht : HashTable)
    (buckets : list chain) (k : list byte) (n : Z) (value : list byte)
    (valuesize : Z) (o o' : oracle) (hash : Z) (head : chain) (ret : Z)
    (res : option HashTable) :
  table ht = Some buckets ->
  bucket_of signed ht k n = Ok hash ->
  buckets !! Z.to_nat hash = Some head ->
  Forall (passed_for k n) (chain_entries head) ->
  insertInHashTable signed (Some ht) k n value valuesize o = Ok (ret, res, o') ->
  ret = 0 /\
  findInHashTable signed res k n
  = Ok (Some (mkHashValue (Some (map Some (firstn (Z.to_nat valuesize) value)))
                valuesize)).
Proof.
  intros Ht Hh Hb Hpassed H.
  apply insertInHashTable_Ok in H
    as [(Hnone & _) | (bs & hash' & head0 & head' & counted & Ht' & Hh' & Hb'
                       & Hscan & -> & ->)]; [congruence|].
  rewrite Ht in Ht'. injection Ht' as <-.
  rewrite Hh in Hh'. injection Hh' as <-.
  rewrite Hb in Hb'. injection Hb' as <-.
  split; [reflexivity|].
  rewrite (findInHashTable_rewritten_bucket signed ht buckets _ _ head' k n hash Hh eq_refl)
    by (apply lookup_lt_is_Some; eauto).
  apply insert_chain_Ok in Hscan
    as [(-> & pre & e & post & -> & Hpre & Hhit & -> & _)
       | (-> & e & Hc & Hpre & Hnew & ->)].
  - exfalso. rewrite chain_entries_app in Hpassed.
    apply Forall_app in Hpassed as [_ Hrest].
    apply Forall_cons in Hrest as [He _].
    unfold passed_for, taken_for in *. congruence.
  - rewrite find_chain_app_passed by (apply Forall_passed_same_key; exact Hpre).
    apply new_entry_Ok in Hnew as (Hlen & _ & ->).
    cbn [find_chain]. rewrite same_key_own by (try reflexivity; exact Hlen).
    reflexivity.
Qed.

Lemma insert_new_key_then_find_witness :
  let ht := mkHashTable 1 1 (Some [Node (entry_of ["j"%byte] ["w"%byte]) NULL]) in
  exists res,
    insertInHashTable true (Some ht) ["k"%byte] 1 ["v"%byte; "1"%byte] 2 []
    = Ok (0, res, []) /\
    findInHashTable true res ["k"%byte] 1
    = Ok (Some (mkHashValue (Some [Some "v"%byte; Some "1"%byte]) 2)).
Proof.
  intros ht. eexists. split; [vm_compute; reflexivity|].
  eapply (insert_new_key_then_find true ht _ ["k"%byte] 1 ["v"%byte; "1"%byte] 2
            [] [] 0).
  - reflexivity.
  - reflexivity.
  - reflexivity.
  - constructor; [reflexivity | constructor].
  - vm_compute. reflexivity.
Defined.

(** ** Insertion never loses a key *)







(** ** Tables built by createHashTable and insertInHashTable *)

Lemma table_wf_bucket (signed : bool) (ht : HashTable) (buckets : list chain)
    (k : list byte) (n : Z) :
  table_wf ht buckets ->
  n <= blen k ->
  exists hash head,
    bucket_of signed ht k n = Ok hash /\
    buckets !! Z.to_nat hash = Some head /\
    chain_wf head.
Proof.
  intros (Ht & Hcap & Hpos & Hwf) Hn.
  set (h := char_hash signed (firstn (Z.to_nat n) k)).
  pose proof (Z.mod_pos_bound h (capacity ht) Hpos) as Hrange.
  destruct (lookup_lt_is_Some_2 buckets (Z.to_nat (h mod capacity ht)))
    as [head Hhead].
  { unfold blen in Hcap. lia. }
  exists (h mod capacity ht), head.
  split; [apply bucket_of_char_hash; [exact Hn | lia]|].
  split; [exact Hhead|].
  rewrite Forall_forall in Hwf. apply Hwf. eapply list_elem_of_lookup_2; eauto.
Qed.

Lemma insertInHashTable_capacity (signed : bool) (ht ht' : HashTable)
    (k : list byte) (n : Z) (w : list byte) (valuesize : Z) (o o' : oracle)
    (ret : Z) :
  insertInHashTable signed (Some ht) k n w valuesize o = Ok (ret, Some ht', o') ->
  capacity ht' = capacity ht.
Proof.
  intros H. apply insertInHashTable_Ok in H
    as [(_ & _ & [= <-] & _) | (bs & hash & head & head' & counted & _ & _ & _
                                & _ & _ & [= ->])]; reflexivity.
Qed.

Lemma insert_all_table_wf (signed : bool) (calls : list insertion) :
  forall (ht : HashTable) (buckets : list chain) (o o' : oracle)
         (res : option HashTable),
    table_wf ht buckets ->
    Forall (fun c => 0 <= ins_keysize c) calls ->
    insert_all signed (Some ht) calls o = Ok (res, o') ->
    exists ht' buckets',
      res = Some ht' /\ table_wf ht' buckets' /\ capacity ht' = capacity ht.
Proof.
  induction calls as [|c calls IH]; intros ht buckets o o' res Hwf Hpos H;
    cbn [insert_all] in H.
  - injection H as <- <-. eauto.
  - apply Forall_cons in Hpos as [Hc Hpos].
    destruct (insertInHashTable signed (Some ht) (ins_key c) (ins_keysize c)
                (ins_value c) (ins_valuesize c) o) as [[[ret mid] o1]|] eqn:E;
      cbn [bind] in H; [|discriminate].
    destruct (insertInHashTable_table_wf _ _ _ _ _ _ _ _ _ _ _ Hc Hwf E)
      as (ht1 & bs1 & -> & Hwf1).
    apply insertInHashTable_capacity in E.
    destruct (IH _ _ _ _ _ Hwf1 Hpos H) as (ht' & bs' & -> & Hwf' & Hcap).
    exists ht', bs'. split; [reflexivity|]. split; [exact Hwf'|]. congruence.
Qed.

(** X4.  A table that [createHashTable] returned for a positive capacity, after
    any calls of [insertInHashTable] that ran to their end: it has the
    capacity it was created with and as many buckets, every chain ends with
    the null pointer, every key buffer has [key_size] bytes, and every
    lookup with a key buffer of at least [keysize] bytes has a defined
    result. *)
Theorem inserts_keep_table_sound (signed : bool) (size : Z)
    (calls : list insertion) (o o1 o2 : oracle) (ht : HashTable)
    (res : option HashTable) :
  0 < size < 2 ^ 31 ->
  createHashTable size o = (Some ht, o1) ->
  Forall (fun c => 0 <= ins_keysize c) calls ->
  insert_all signed (Some ht) calls o1 = Ok (res, o2) ->
  exists ht' buckets,
    res = Some ht' /\ table ht' = Some buckets /\
    capacity ht' = size /\ blen buckets = size /\
    Forall terminated buckets /\
    Forall (fun c => Forall entry_wf (chain_entries c)) buckets /\
    (forall (k : list byte) (n : Z),
        n <= blen k -> exists r, findInHashTable signed (Some ht') k n = Ok r).
Proof.
  intros Hsize Hc Hpos Hrun.
  destruct (createHashTable_table_wf size o o1 ht Hsize Hc) as (bs & Hwf).
  assert (capacity ht = size) as Hcap.
  { unfold createHashTable in Hc.
    destruct (MALLOC sizeof_HashTable o) as [[] oa]; cbn [negb] in Hc;
      [|discriminate].
    destruct (MALLOC _ oa) as [[] ob]; cbn [negb] in Hc; [|discriminate].
    injection Hc as <- _. cbn [capacity]. apply u32_small. lia. }
  destruct (insert_all_table_wf signed calls ht bs o1 o2 res Hwf Hpos Hrun)
    as (ht' & buckets & -> & Hwf' & Hcap').
  exists ht', buckets.
  pose proof Hwf' as (Ht & Hlen & Hgt & Hall).
  repeat split; try assumption; try congruence.
  - eapply Forall_impl; [exact Hall|]. intros c [H _]. exact H.
  - eapply Forall_impl; [exact Hall|]. intros c [_ H]. exact H.
  - intros k n Hn.
    destruct (table_wf_bucket signed ht' buckets k n Hwf' Hn)
      as (hash & head & Hh & Hb & Hhead).
    destruct (find_chain_first head k n Hhead Hn) as (r & Hr & _).
    exists r. rewrite <- Hr.
    apply (findInHashTable_bucket signed ht' buckets k n hash head); assumption.
Qed.

Lemma inserts_keep_table_sound_witness :
  let calls := [call_of ["k"%byte] ["v"%byte]; call_of ["j"%byte] ["w"%byte]] in
  exists res,
    insert_all true (Some (mkHashTable 2 0 (Some [NULL; NULL]))) calls []
    = Ok (res, []) /\
    exists ht' buckets,
      res = Some ht' /\ table ht' = Some buckets /\
      capacity ht' = 2 /\ blen buckets = 2 /\
      Forall terminated buckets /\
      Forall (fun c => Forall entry_wf (chain_entries c)) buckets /\
      (forall (k : list byte) (n : Z),
          n <= blen k -> exists r, findInHashTable true (Some ht') k n = Ok r).
Proof.
  intros calls. eexists. split; [vm_compute; reflexivity|].
  apply (inserts_keep_table_sound true 2 calls [] [] []
           (mkHashTable 2 0 (Some [NULL; NULL]))).
  - lia.
  - reflexivity.
  - repeat constructor; vm_compute; congruence.
  - vm_compute. reflexivity.
Defined.

(** ** The entry count *)

Lemma total_entries_insert (buckets : list chain) :
  forall (i : nat) (head head' : chain),
    buckets !! i = Some head ->
    (total_entries (<[i := head']> buckets) + length (chain_entries head)
     = total_entries buckets + length (chain_entries head'))%nat.
Proof.
  unfold total_entries.
  induction buckets as [|c buckets IH]; intros i head head' H.
  - discriminate.
  - destruct i as [|i]; simpl in *.
    + injection H as ->. lia.
    + specialize (IH i head head' H). lia.
Qed.

Lemma total_entries_empty (m : nat) : total_entries (repeat NULL m) = 0%nat.
Proof.
  unfold total_entries. induction m as [|m IH]; [reflexivity | exact IH].
Qed.

Lemma u32_succ (z : Z) : u32 (u32 z + 1) = u32 (z + 1).
Proof. unfold u32. apply Z.add_mod_idemp_l. lia. Qed.

Lemma insertInHashTable_size_entries (signed : bool) (ht : HashTable)
    (buckets : list chain) (k : list byte) (n : Z) (w : list byte)
    (valuesize : Z) (o o' : oracle) (ret : Z) (res : option HashTable) :
  table ht = Some buckets ->
  size ht = u32 (Z.of_nat (total_entries buckets)) ->
  insertInHashTable signed (Some ht) k n w valuesize o = Ok (ret, res, o') ->
  exists ht' buckets',
    res = Some ht' /\ table ht' = Some buckets' /\
    size ht' = u32 (Z.of_nat (total_entries buckets')).
Proof.
  intros Ht Hsize H.
  apply insertInHashTable_Ok in H
    as [(Hnone & _) | (bs & hash & head & head' & counted & Ht' & _ & Hb
                       & Hscan & _ & ->)]; [congruence|].
  rewrite Ht in Ht'. injection Ht' as <-.
  eexists _, _. split; [reflexivity|]. split; [reflexivity|]. cbn [size].
  pose proof (total_entries_insert buckets _ head head' Hb) as Htot.
  apply insert_chain_Ok in Hscan
    as [(-> & pre & e & post & -> & _ & _ & -> & _)
       | (-> & e & Hc & _ & _ & ->)].
  - rewrite !chain_entries_app in Htot. cbn [chain_entries] in Htot.
    rewrite !length_app in Htot. cbn [length] in Htot.
    rewrite Hsize. f_equal. lia.
  - rewrite chain_entries_app in Htot. cbn [chain_entries] in Htot.
    rewrite length_app in Htot. cbn [length] in Htot.
    rewrite Hsize, u32_succ. f_equal. lia.
Qed.

Lemma insert_all_size_entries (signed : bool) (calls : list insertion) :
  forall (ht : HashTable) (buckets : list chain) (o o' : oracle)
         (res : option HashTable),
    table ht = Some buckets ->
    size ht = u32 (Z.of_nat (total_entries buckets)) ->
    insert_all signed (Some ht) calls o = Ok (res, o') ->
    exists ht' buckets',
      res = Some ht' /\ table ht' = Some buckets' /\
      size ht' = u32 (Z.of_nat (total_entries buckets')).
Proof.
  induction calls as [|c calls IH]; intros ht buckets o o' res Ht Hsize H;
    cbn [insert_all] in H.
  - injection H as <- <-. eauto.
  - destruct (insertInHashTable signed (Some ht) (ins_key c) (ins_keysize c)
                (ins_value c) (ins_valuesize c) o) as [[[ret mid] o1]|] eqn:E;
      cbn [bind] in H; [|discriminate].
    destruct (insertInHashTable_size_entries _ _ _ _ _ _ _ _ _ _ _ Ht Hsize E)
      as (ht1 & bs1 & -> & Ht1 & Hs1).
    exact (IH _ _ _ _ _ Ht1 Hs1 H).
Qed.

(** X5.  As long as only [insertInHashTable] is called on a table that
    [createHashTable] returned, [size] is the number of entries in the
    chains, modulo [2^32]. *)
Theorem size_counts_entries (signed : bool) (capacity0 : Z)
    (calls : list insertion) (o o1 o2 : oracle) (ht : HashTable)
    (res : option HashTable) :
  createHashTable capacity0 o = (Some ht, o1) ->
  insert_all signed (Some ht) calls o1 = Ok (res, o2) ->
  exists ht' buckets,
    res = Some ht' /\ table ht' = Some buckets /\
    size ht' = u32 (Z.of_nat (total_entries buckets)).
Proof.
  intros Hc Hrun.
  assert (exists buckets, table ht = Some buckets /\
                          size ht = u32 (Z.of_nat (total_entries buckets)))
    as (buckets & Ht & Hs).
  { unfold createHashTable in Hc.
    destruct (MALLOC sizeof_HashTable o) as [[] oa]; cbn [negb] in Hc;
      [|discriminate].
    destruct (MALLOC _ oa) as [[] ob]; cbn [negb] in Hc; [|discriminate].
    injection Hc as <- _. eexists. split; [reflexivity|]. cbn [size].
    rewrite total_entries_empty. reflexivity. }
  exact (insert_all_size_entries signed calls ht buckets o1 o2 res Ht Hs Hrun).
Qed.

Lemma size_counts_entries_witness :
  let calls := [call_of ["k"%byte] ["v"%byte]; call_of ["j"%byte] ["w"%byte];
                call_of ["k"%byte] ["x"%byte]] in
  exists res,
    insert_all true (Some one_bucket) calls [] = Ok (res, []) /\
    exists ht' buckets,
      res = Some ht' /\ table ht' = Some buckets /\
      size ht' = u32 (Z.of_nat (total_entries buckets)).
Proof.
  intros calls. eexists. split; [vm_compute; reflexivity|].
  apply (size_counts_entries true 1 calls [] [] [] one_bucket).
  - reflexivity.
  - vm_compute. reflexivity.
Defined.

(** ** When insertInHashTable runs to its end *)

Lemma MALLOC_granting (n : Z) (o : oracle) :
  granting o -> n <= PTRDIFF_MAX ->
  exists o', MALLOC n o = (true, o') /\ granting o'.
Proof.
  intros Ho Hn. unfold MALLOC.
  assert ((n <=? PTRDIFF_MAX) = true) as -> by (apply Z.leb_le; exact Hn).
  destruct Ho as [|b o' -> Ho'].
  - exists []. split; [reflexivity | constructor].
  - exists o'. split; [reflexivity | exact Ho'].
Qed.

Lemma MALLOC_keeps_granting (n : Z) (o : oracle) :
  granting o -> granting (snd (MALLOC n o)).
Proof.
  intros Ho. unfold MALLOC. destruct Ho as [|b o' _ Ho']; cbn [snd];
    [constructor | exact Ho'].
Qed.

Lemma overwrite_keeps_granting (e : HashTableEntry) (valuesize : Z) (o : oracle) :
  granting o -> granting (snd (overwrite e valuesize o)).
Proof.
  intros Ho. unfold overwrite, REALLOC.
  destruct (value_size (v e) <? valuesize); [|exact Ho].
  pose proof (MALLOC_keeps_granting valuesize o Ho) as H.
  destruct (MALLOC valuesize o) as [[] o1]; exact H.
Qed.

Lemma new_entry_granting (k : list byte) (n : Z) (w : list byte) (valuesize : Z)
    (o : oracle) :
  granting o ->
  n <= blen k -> n < 2 ^ 16 ->
  valuesize <= blen w -> valuesize < 2 ^ 16 ->
  exists e o', new_entry k n w valuesize o = Ok (e, o') /\ granting o'.
Proof.
  intros Ho Hk Hn Hw Hv. unfold new_entry, memcpy.
  destruct (MALLOC_granting sizeof_HashTableEntry o Ho) as (o1 & -> & Ho1).
  { unfold sizeof_HashTableEntry, PTRDIFF_MAX. lia. }
  destruct (MALLOC_granting n o1 Ho1) as (o2 & -> & Ho2).
  { unfold PTRDIFF_MAX. lia. }
  destruct (MALLOC_granting valuesize o2 Ho2) as (o3 & -> & Ho3).
  { unfold PTRDIFF_MAX. lia. }
  cbn [negb].
  assert ((n <=? blen k) = true) as -> by (apply Z.leb_le; exact Hk).
  assert ((valuesize <=? blen w) = true) as -> by (apply Z.leb_le; exact Hw).
  cbn [bind]. eauto.
Qed.

Lemma same_bytes_defined (e : HashTableEntry) (k : list byte) (n : Z) :
  entry_wf e -> n <= key_size e -> n <= blen k ->
  exists hit, same_bytes e k n = Ok hit.
Proof.
  intros Hwf Hn Hk. unfold same_bytes, entry_wf in *.
  destruct (key e) as [stored|]; [|eauto].
  destruct (memcmp_zero stored k n) as (r & -> & _); [lia | exact Hk |].
  cbn [bind]. eauto.
Qed.

Lemma insert_chain_defined (c : chain) (k : list byte) (n : Z) (w : list byte)
    (valuesize : Z) :
  chain_wf c ->
  Forall (fun e => n <= key_size e) (chain_entries c) ->
  n <= blen k -> n < 2 ^ 16 ->
  valuesize <= blen w -> valuesize < 2 ^ 16 ->
  forall o, granting o ->
  exists c' counted o',
    insert_chain c k n w valuesize o = Ok (c', counted, o') /\ granting o'.
Proof.
  intros [Hterm Hwf] Hlong Hk Hn Hw Hv.
  induction c as [|e next IH|]; intros o Ho; cbn [terminated chain_entries] in *.
  - destruct (new_entry_granting k n w valuesize o Ho Hk Hn Hw Hv)
      as (e & o' & He & Ho').
    cbn [insert_chain]. rewrite He. cbn [bind]. eauto 10.
  - apply Forall_cons in Hwf as [He Hwf].
    apply Forall_cons in Hlong as [Hle Hlong].
    destruct (same_bytes_defined e k n He Hle Hk) as (hit & Hhit).
    cbn [insert_chain]. rewrite Hhit. cbn [bind]. destruct hit.
    + pose proof (overwrite_keeps_granting e valuesize o Ho) as Ho'.
      destruct (overwrite e valuesize o) as [e' o1]. eauto 10.
    + destruct (IH Hterm Hwf Hlong o Ho) as (c' & counted & o' & -> & Ho').
      cbn [bind]. eauto 10.
  - contradiction.
Qed.

(** X6.  On a sound table, with key and value buffers of at least [keysize] and
    [valuesize] bytes, both sizes in the range of [unsigned short], no key in
    the bucket's chain shorter than [keysize], and an allocator that grants
    its requests, [insertInHashTable] has defined behaviour, returns 0 and
    leaves a sound table of the same capacity. *)
Theorem insertInHashTable_defined (signed : bool) (ht : HashTable)
    (buckets : list chain) (k : list byte) (n : Z) (w : list byte)
    (valuesize : Z) (o : oracle) (head : chain) :
  table_wf ht buckets ->
  0 <= n < 2 ^ 16 -> n <= blen k ->
  valuesize < 2 ^ 16 -> valuesize <= blen w ->
  buckets !! Z.to_nat (char_hash signed (firstn (Z.to_nat n) k) mod capacity ht)
  = Some head ->
  Forall (fun e => n <= key_size e) (chain_entries head) ->
  granting o ->
  exists ht' buckets' o',
    insertInHashTable signed (Some ht) k n w valuesize o = Ok (0, Some ht', o') /\
    table_wf ht' buckets' /\ capacity ht' = capacity ht /\ granting o'.
Proof.
  intros Hwf Hn Hk Hv Hw Hb Hlong Ho.
  destruct (table_wf_bucket signed ht buckets k n Hwf Hk)
    as (hash & head0 & Hh & Hb0 & Hhead).
  pose proof Hwf as (Ht & _ & Hpos & _).
  rewrite bucket_of_char_hash in Hh by lia. injection Hh as <-.
  rewrite Hb in Hb0. injection Hb0 as <-.
  destruct (insert_chain_defined head k n w valuesize Hhead Hlong Hk
              (proj2 Hn) Hw Hv o Ho) as (c' & counted & o' & Hscan & Ho').
  assert (exists ht', insertInHashTable signed (Some ht) k n w valuesize o
                      = Ok (0, Some ht', o')) as (ht' & Hins).
  { unfold insertInHashTable. rewrite Ht.
    rewrite bucket_of_char_hash by lia. cbn [bind].
    apply bucket_Ok in Hb. rewrite Hb. cbn [bind].
    assert (match head with
            | NULL =>
                let* fresh := new_entry k n w valuesize o in
                let '(e, o1) := fresh in Ok (Node e NULL, true, o1)
            | _ => insert_chain head k n w valuesize o
            end = insert_chain head k n w valuesize o) as ->
        by (destruct head; reflexivity).
    rewrite Hscan. cbn [bind]. eauto. }
  destruct (insertInHashTable_table_wf signed ht buckets k n w valuesize o o' 0
              (Some ht') (proj1 Hn) Hwf Hins) as (ht1 & buckets' & [= <-] & Hwf').
  exists ht', buckets', o'. split; [exact Hins|]. split; [exact Hwf'|].
  split; [|exact Ho'].
  eapply insertInHashTable_capacity. exact Hins.
Qed.

Lemma insertInHashTable_defined_witness :
  let ht := mkHashTable 1 1 (Some [Node (entry_of ["j"%byte] ["w"%byte]) NULL]) in
  exists ht' buckets' o',
    insertInHashTable true (Some ht) ["k"%byte] 1 ["v"%byte] 1 [true; true; true]
    = Ok (0, Some ht', o') /\
    table_wf ht' buckets' /\ capacity ht' = capacity ht /\ granting o'.
Proof.
  intros ht.
  apply (insertInHashTable_defined true ht
           [Node (entry_of ["j"%byte] ["w"%byte]) NULL] ["k"%byte] 1 ["v"%byte] 1
           [true; true; true] (Node (entry_of ["j"%byte] ["w"%byte]) NULL)).
  - unfold table_wf. repeat split; try reflexivity. repeat constructor.
  - lia.
  - vm_compute. congruence.
  - lia.
  - vm_compute. congruence.
  - reflexivity.
  - repeat constructor. vm_compute. congruence.
  - repeat constructor.
Defined.

(** ** removeFromHashTable *)

Lemma remove_chain_absent (c : chain) (has_prev : bool) (k : list byte) (n : Z) :
  find_chain c k n = Ok None -> remove_chain c has_prev k n = Ok c.
Proof.
  revert has_prev. induction c as [|e next IH|]; intros has_prev;
    cbn [find_chain remove_chain].
  - reflexivity.
  - destruct (same_key e k n) as [[]|]; cbn [bind]; [discriminate| |discriminate].
    intros H. rewrite (IH true H). reflexivity.
  - discriminate.
Qed.

(** X8.  Removing a key that [findInHashTable] reports absent leaves the table
    object as it is. *)
Theorem remove_absent_key_noop (signed : bool) (ht : HashTable) (k : list byte)
    (n : Z) :
  findInHashTable signed (Some ht) k n = Ok None ->
  removeFromHashTable signed (Some ht) k n = Ok (Some ht).
Proof.
  unfold findInHashTable, removeFromHashTable.
  destruct (table ht) as [buckets|] eqn:Ht; [|reflexivity].
  destruct (bucket_of signed ht k n) as [hash|]; cbn [bind]; [|discriminate].
  destruct (bucket buckets hash) as [head|] eqn:Hb; cbn [bind]; [|discriminate].
  intros H. rewrite (remove_chain_absent head false k n H). cbn [bind].
  apply bucket_Ok in Hb. rewrite list_insert_id by exact Hb.
  destruct ht as [cap sz tbl]. cbn in *. subst tbl. reflexivity.
Qed.

Lemma remove_absent_key_noop_witness :
  let ht := mkHashTable 1 2
              (Some [Node (entry_of ["j"%byte] ["w"%byte])
                       (Node (entry_of ["k"%byte] ["v"%byte]) NULL)]) in
  removeFromHashTable true (Some ht) ["x"%byte] 1 = Ok (Some ht).
Proof.
  intros ht. apply (remove_absent_key_noop true ht ["x"%byte] 1). reflexivity.
Defined.

Lemma same_key_of_holds (e : HashTableEntry) (k : list byte) (n : Z) :
  entry_wf e -> n <= blen k ->
  (holds_key (firstn (Z.to_nat n) k) n e -> same_key e k n = Ok true) /\
  (~ holds_key (firstn (Z.to_nat n) k) n e -> same_key e k n = Ok false).
Proof.
  intros Hwf Hn.
  destruct (same_key_holds e k n Hwf Hn) as (hit & -> & Hiff).
  split; intros H.
  - f_equal. apply Hiff. exact H.
  - f_equal. destruct hit; [|reflexivity]. exfalso. apply H, Hiff. reflexivity.
Qed.

Lemma holds_key_key_of (k : list byte) (n : Z) (e1 e2 : HashTableEntry) :
  holds_key k n e1 -> holds_key k n e2 -> key_of e1 = key_of e2.
Proof. unfold holds_key, key_of. intros [-> ->] [-> ->]. reflexivity. Qed.

(** X9.  Removing the key held by the first entry of its chain, on a sound table
    whose chain holds no key twice: the entry is unlinked, [size] stays, the
    key is no longer found, every other key is looked up as before, and the
    table is still sound. *)
Theorem remove_head_entry (signed : bool) (ht : HashTable)
    (buckets : list chain) (k : list byte) (n : Z) (e : HashTableEntry)
    (next : chain) :
  table_wf ht buckets ->
  n <= blen k ->
  let i := Z.to_nat (char_hash signed (firstn (Z.to_nat n) k) mod capacity ht) in
  buckets !! i = Some (Node e next) ->
  holds_key (firstn (Z.to_nat n) k) n e ->
  chain_unique (Node e next) ->
  let ht' := mkHashTable (capacity ht) (size ht) (Some (<[i := next]> buckets)) in
  removeFromHashTable signed (Some ht) k n = Ok (Some ht') /\
  table_wf ht' (<[i := next]> buckets) /\
  findInHashTable signed (Some ht') k n = Ok None /\
  (forall (k2 : list byte) (n2 : Z),
      n2 <= blen k2 ->
      ~ holds_key (firstn (Z.to_nat n2) k2) n2 e ->
      findInHashTable signed (Some ht') k2 n2
      = findInHashTable signed (Some ht) k2 n2).
Proof.
  intros Hwf Hn i Hb Hholds Huniq ht'.
  pose proof Hwf as (Ht & Hcap & Hpos & Hall).
  assert (bucket_of signed ht k n = Ok (Z.of_nat i)) as Hh.
  { rewrite bucket_of_char_hash by lia. f_equal. subst i.
    pose proof (Z.mod_pos_bound (char_hash signed (firstn (Z.to_nat n) k))
                  (capacity ht) Hpos). lia. }
  assert (chain_wf (Node e next)) as [Hterm Hent].
  { rewrite Forall_forall in Hall. apply Hall. eapply list_elem_of_lookup_2; eauto. }
  cbn [terminated chain_entries] in Hterm, Hent.
  apply Forall_cons in Hent as [He Hent].
  assert (i < length buckets)%nat as Hlt by (apply lookup_lt_is_Some; eauto).
  assert (table_wf ht' (<[i := next]> buckets)) as Hwf'.
  { unfold table_wf. cbn [table capacity]. split; [reflexivity|].
    unfold blen in *. rewrite length_insert. split; [exact Hcap|].
    split; [exact Hpos|]. apply Forall_insert; [exact Hall|]. split; assumption. }
  split; [|split; [exact Hwf'|split]].
  - unfold removeFromHashTable. rewrite Ht, Hh. cbn [bind].
    unfold bucket. rewrite Nat2Z.id, Hb. cbn [bind remove_chain].
    rewrite (proj1 (same_key_of_holds e k n He Hn) Hholds). reflexivity.
  - unfold ht'.
    rewrite (findInHashTable_rewritten_bucket signed ht buckets (size ht) i next
               k n (Z.of_nat i) Hh (Nat2Z.id i) Hlt).
    destruct (find_chain_first next k n (conj Hterm Hent) Hn)
      as (r & -> & Hsome & _).
    f_equal. destruct r as [d|]; [|reflexivity]. exfalso.
    destruct Hsome as [Hsome _].
    destruct Hsome as (e2 & He2 & Hk2); [eauto|].
    unfold chain_unique in Huniq. cbn [chain_entries map] in Huniq.
    apply NoDup_cons in Huniq as [Hnotin _]. apply Hnotin.
    rewrite (holds_key_key_of _ _ e e2 Hholds Hk2).
    apply list_elem_of_fmap. eauto.
  - intros k2 n2 Hn2 Hnot. unfold ht'.
    destruct (table_wf_bucket signed ht buckets k2 n2 Hwf Hn2)
      as (hash2 & head2 & Hh2 & Hb2 & _).
    destruct (Nat.eq_dec (Z.to_nat hash2) i) as [Heq | Hne].
    + rewrite (findInHashTable_rewritten_bucket signed ht buckets (size ht) i
                 next k2 n2 hash2 Hh2 Heq Hlt).
      rewrite (findInHashTable_bucket signed ht buckets k2 n2 hash2 head2 Ht Hh2 Hb2).
      rewrite Heq, Hb in Hb2. injection Hb2 as <-. cbn [find_chain].
      rewrite (proj2 (same_key_of_holds e k2 n2 He Hn2) Hnot). reflexivity.
    + apply (findInHashTable_other_bucket signed ht buckets (size ht) i next k2
               n2 hash2 Ht Hh2 Hne).
Qed.

Lemma remove_head_entry_witness :
  let j := entry_of ["j"%byte] ["w"%byte] in
  let k := entry_of ["k"%byte] ["v"%byte] in
  let ht := mkHashTable 1 2 (Some [Node j (Node k NULL)]) in
  let ht' := mkHashTable 1 2 (Some [Node k NULL]) in
  removeFromHashTable true (Some ht) ["j"%byte] 1 = Ok (Some ht') /\
  table_wf ht' [Node k NULL] /\
  findInHashTable true (Some ht') ["j"%byte] 1 = Ok None /\
  (forall (k2 : list byte) (n2 : Z),
      n2 <= blen k2 ->
      ~ holds_key (firstn (Z.to_nat n2) k2) n2 j ->
      findInHashTable true (Some ht') k2 n2 = findInHashTable true (Some ht) k2 n2).
Proof.
  intros j k ht ht'.
  apply (remove_head_entry true ht [Node j (Node k NULL)] ["j"%byte] 1 j
           (Node k NULL)).
  - unfold table_wf. repeat split; try reflexivity. repeat constructor.
  - vm_compute. congruence.
  - reflexivity.
  - split; reflexivity.
  - unfold chain_unique. cbn. constructor.
    + intros H. apply list_elem_of_singleton in H. discriminate.
    + apply NoDup_singleton.
Defined.

Lemma remove_chain_dangling (pre : list HashTableEntry) (has_prev : bool)
    (k : list byte) (n : Z) :
  Forall (fun e' => same_key e' k n = Ok false) pre ->
  remove_chain (chain_app pre Dangling) has_prev k n = Undefined UseAfterFree.
Proof.
  intros H. revert has_prev.
  induction H as [|e0 pre He0 Hpre IH]; intros has_prev; [reflexivity|].
  rewrite chain_app_cons. cbn [remove_chain]. rewrite He0. cbn [bind].
  rewrite IH. reflexivity.
Qed.

Lemma chain_wf_app (pre : list HashTableEntry) (c : chain) :
  chain_wf (chain_app pre c) -> Forall entry_wf pre /\ chain_wf c.
Proof.
  unfold chain_wf. rewrite terminated_app, chain_entries_app.
  intros [Hterm Hall]. apply Forall_app in Hall as [Hpre Hc]. auto.
Qed.

Lemma Forall_not_holds_same_key (pre : list HashTableEntry) (k : list byte)
    (n : Z) :
  n <= blen k ->
  Forall entry_wf pre ->
  Forall (fun e' => ~ holds_key (firstn (Z.to_nat n) k) n e') pre ->
  Forall (fun e' => same_key e' k n = Ok false) pre.
Proof.
  intros Hn Hwf. induction Hwf as [|e pre He Hpre IH]; intros Hnot;
    [constructor|].
  apply Forall_cons in Hnot as [Hne Hnot]. constructor; [|exact (IH Hnot)].
  exact (proj2 (same_key_of_holds e k n He Hn) Hne).
Qed.

(** X10.  Removing the key held by an entry that has a predecessor in its chain,
    on a sound table: the call returns with the predecessor's [next] still
    pointing at the node it freed and [size] as it was; a lookup of that key
    and a second removal of it then read the freed node. *)
Theorem remove_later_entry (signed : bool) (ht : HashTable)
    (buckets : list chain) (k : list byte) (n : Z) (pre : list HashTableEntry)
    (e : HashTableEntry) (post : chain) :
  table_wf ht buckets ->
  n <= blen k ->
  let bytes := firstn (Z.to_nat n) k in
  let i := Z.to_nat (char_hash signed bytes mod capacity ht) in
  buckets !! i = Some (chain_app pre (Node e post)) ->
  pre <> [] ->
  Forall (fun e' => ~ holds_key bytes n e') pre ->
  holds_key bytes n e ->
  let ht' := mkHashTable (capacity ht) (size ht)
               (Some (<[i := chain_app pre Dangling]> buckets)) in
  removeFromHashTable signed (Some ht) k n = Ok (Some ht') /\
  findInHashTable signed (Some ht') k n = Undefined UseAfterFree /\
  removeFromHashTable signed (Some ht') k n = Undefined UseAfterFree.
Proof.
  intros Hwf Hn bytes i Hb Hne Hnot Hholds ht'.
  pose proof Hwf as (Ht & Hcap & Hpos & Hall).
  assert (bucket_of signed ht k n = Ok (Z.of_nat i)) as Hh.
  { rewrite bucket_of_char_hash by lia. f_equal. subst i.
    pose proof (Z.mod_pos_bound (char_hash signed bytes) (capacity ht) Hpos).
    fold bytes. lia. }
  assert (chain_wf (chain_app pre (Node e post))) as Hc.
  { rewrite Forall_forall in Hall. apply Hall. eapply list_elem_of_lookup_2; eauto. }
  apply chain_wf_app in Hc as [Hprewf [_ Hent]].
  cbn [chain_entries] in Hent. apply Forall_cons in Hent as [He _].
  pose proof (Forall_not_holds_same_key pre k n Hn Hprewf Hnot) as Hpassed.
  pose proof (proj1 (same_key_of_holds e k n He Hn) Hholds) as Hhit.
  assert (i < length buckets)%nat as Hlt by (apply lookup_lt_is_Some; eauto).
  split; [|split].
  - unfold removeFromHashTable. rewrite Ht, Hh. cbn [bind].
    unfold bucket. rewrite Nat2Z.id, Hb. cbn [bind].
    rewrite (remove_chain_with_predecessor pre e post false k n Hne Hpassed Hhit).
    reflexivity.
  - unfold ht'.
    rewrite (findInHashTable_rewritten_bucket signed ht buckets (size ht) i
               (chain_app pre Dangling) k n (Z.of_nat i) Hh (Nat2Z.id i) Hlt).
    apply find_chain_dangling. exact Hpassed.
  - unfold removeFromHashTable, ht'. cbn [table].
    rewrite (bucket_of_capacity signed ht
               (mkHashTable (capacity ht) (size ht)
                  (Some (<[i := chain_app pre Dangling]> buckets))) k n eq_refl).
    rewrite Hh. cbn [bind]. unfold bucket.
    rewrite Nat2Z.id, list_lookup_insert_eq by exact Hlt. cbn [bind].
    rewrite remove_chain_dangling by exact Hpassed. reflexivity.
Qed.

Lemma remove_later_entry_witness :
  let j := entry_of ["j"%byte] ["w"%byte] in
  let k := entry_of ["k"%byte] ["v"%byte] in
  let l := entry_of ["l"%byte] ["u"%byte] in
  let ht := mkHashTable 1 3 (Some [Node j (Node k (Node l NULL))]) in
  let ht' := mkHashTable 1 3 (Some [Node j Dangling]) in
  removeFromHashTable true (Some ht) ["k"%byte] 1 = Ok (Some ht') /\
  findInHashTable true (Some ht') ["k"%byte] 1 = Undefined UseAfterFree /\
  removeFromHashTable true (Some ht') ["k"%byte] 1 = Undefined UseAfterFree.
Proof.
  intros j k l ht ht'.
  apply (remove_later_entry true ht [Node j (Node k (Node l NULL))] ["k"%byte] 1
           [j] k (Node l NULL)).
  - unfold table_wf. repeat split; try reflexivity. repeat constructor.
  - vm_compute. congruence.
  - reflexivity.
  - discriminate.
  - constructor; [|constructor]. intros [_ H]. discriminate.
  - split; reflexivity.
Defined.

(** ** destroyHashTable *)

Lemma destroy_chain_terminated (c : chain) :
  terminated c -> destroy_chain c = Ok (3 * length (chain_entries c))%nat.
Proof.
  induction c as [|e next IH|]; cbn [terminated destroy_chain chain_entries length].
  - reflexivity.
  - intros H. rewrite (IH H). cbn [bind]. f_equal. lia.
  - contradiction.
Qed.

Lemma destroy_chain_dangling (pre : list HashTableEntry) :
  destroy_chain (chain_app pre Dangling) = Undefined UseAfterFree.
Proof.
  induction pre as [|e pre IH]; [reflexivity|].
  rewrite chain_app_cons. cbn [destroy_chain]. rewrite IH. reflexivity.
Qed.

Lemma destroy_from_terminated (count : nat) :
  forall (i : nat) (buckets : list chain),
    (i + count = length buckets)%nat ->
    Forall terminated buckets ->
    destroy_from count i buckets = Ok (3 * total_entries (drop i buckets))%nat.
Proof.
  induction count as [|count IH]; intros i buckets Hlen Hall; cbn [destroy_from].
  - rewrite drop_ge by lia. reflexivity.
  - destruct (lookup_lt_is_Some_2 buckets i) as [head Hhead]; [lia|].
    rewrite Hhead.
    rewrite destroy_chain_terminated.
    2:{ rewrite Forall_forall in Hall. apply Hall.
        eapply list_elem_of_lookup_2; eauto. }
    cbn [bind]. rewrite IH by (try assumption; lia). cbn [bind].
    rewrite (drop_S buckets head i Hhead). unfold total_entries. simpl.
    f_equal. lia.
Qed.

Lemma destroy_from_dangling (count : nat) :
  forall (i j : nat) (buckets : list chain) (c : chain),
    (i <= j < i + count)%nat ->
    (forall m head, (i <= m < j)%nat -> buckets !! m = Some head -> terminated head) ->
    (j < length buckets)%nat ->
    buckets !! j = Some c ->
    destroy_chain c = Undefined UseAfterFree ->
    destroy_from count i buckets = Undefined UseAfterFree.
Proof.
  induction count as [|count IH]; intros i j buckets c Hij Hbefore Hlt Hj Hc;
    [lia|].
  cbn [destroy_from].
  destruct (Nat.eq_dec i j) as [-> | Hne].
  - rewrite Hj, Hc. reflexivity.
  - destruct (lookup_lt_is_Some_2 buckets i) as [head Hhead]; [lia|].
    rewrite Hhead.
    rewrite destroy_chain_terminated by (apply (Hbefore i); [lia | exact Hhead]).
    cbn [bind].
    rewrite (IH (S i) j buckets c); try assumption; try lia; [reflexivity|].
    intros m head' Hm. apply Hbefore. lia.
Qed.

(** X12.  On a sound table [destroyHashTable] has defined behaviour and calls
    [FREE] three times for every entry, once for the bucket array and once
    for the table object. *)
Theorem destroy_sound_table (ht : HashTable) (buckets : list chain) :
  table_wf ht buckets ->
  destroyHashTable (Some ht) = Ok (3 * total_entries buckets + 2)%nat.
Proof.
  intros (Ht & Hcap & Hpos & Hall).
  unfold destroyHashTable. rewrite Ht.
  rewrite (destroy_from_terminated (Z.to_nat (capacity ht)) 0 buckets).
  - reflexivity.
  - unfold blen in Hcap. lia.
  - eapply Forall_impl; [exact Hall|]. intros c [H _]. exact H.
Qed.

Lemma destroy_sound_table_witness :
  let ht := mkHashTable 2 3
              (Some [Node (entry_of ["j"%byte] ["w"%byte])
                       (Node (entry_of ["l"%byte] ["u"%byte]) NULL);
                     Node (entry_of ["k"%byte] ["v"%byte]) NULL]) in
  destroyHashTable (Some ht) = Ok 11%nat.
Proof.
  intros ht.
  apply (destroy_sound_table ht
           [Node (entry_of ["j"%byte] ["w"%byte])
              (Node (entry_of ["l"%byte] ["u"%byte]) NULL);
            Node (entry_of ["k"%byte] ["v"%byte]) NULL]).
  unfold table_wf. repeat split; try reflexivity. repeat constructor.
Defined.

(** X13.  After [removeFromHashTable] removed an entry that has a predecessor in
    its chain, [destroyHashTable] walks into the node already freed. *)
Theorem destroy_after_remove_later_entry (signed : bool) (ht : HashTable)
    (buckets : list chain) (k : list byte) (n : Z) (pre : list HashTableEntry)
    (e : HashTableEntry) (post : chain) (res : option HashTable) :
  table_wf ht buckets ->
  n <= blen k ->
  let bytes := firstn (Z.to_nat n) k in
  let i := Z.to_nat (char_hash signed bytes mod capacity ht) in
  buckets !! i = Some (chain_app pre (Node e post)) ->
  pre <> [] ->
  Forall (fun e' => ~ holds_key bytes n e') pre ->
  holds_key bytes n e ->
  removeFromHashTable signed (Some ht) k n = Ok res ->
  destroyHashTable res = Undefined UseAfterFree.
Proof.
  intros Hwf Hn bytes i Hb Hne Hnot Hholds Hrem.
  pose proof Hwf as (Ht & Hcap & Hpos & Hall).
  assert (bucket_of signed ht k n = Ok (Z.of_nat i)) as Hh.
  { rewrite bucket_of_char_hash by lia. f_equal. subst i.
    pose proof (Z.mod_pos_bound (char_hash signed bytes) (capacity ht) Hpos).
    fold bytes. lia. }
  assert (chain_wf (chain_app pre (Node e post))) as Hc.
  { rewrite Forall_forall in Hall. apply Hall. eapply list_elem_of_lookup_2; eauto. }
  apply chain_wf_app in Hc as [Hprewf [_ Hent]].
  cbn [chain_entries] in Hent. apply Forall_cons in Hent as [He _].
  pose proof (Forall_not_holds_same_key pre k n Hn Hprewf Hnot) as Hpassed.
  pose proof (proj1 (same_key_of_holds e k n He Hn) Hholds) as Hhit.
  assert (i < length buckets)%nat as Hlt by (apply lookup_lt_is_Some; eauto).
  unfold removeFromHashTable in Hrem. rewrite Ht, Hh in Hrem. cbn [bind] in Hrem.
  unfold bucket in Hrem. rewrite Nat2Z.id, Hb in Hrem. cbn [bind] in Hrem.
  rewrite (remove_chain_with_predecessor pre e post false k n Hne Hpassed Hhit)
    in Hrem.
  cbn [bind] in Hrem. injection Hrem as <-.
  unfold destroyHashTable. cbn [table capacity].
  rewrite (destroy_from_dangling (Z.to_nat (capacity ht)) 0 i
             (<[i := chain_app pre Dangling]> buckets) (chain_app pre Dangling)).
  - reflexivity.
  - unfold blen in Hcap. lia.
  - intros m head Hm Hlook.
    rewrite list_lookup_insert_ne in Hlook by lia.
    rewrite Forall_forall in Hall.
    apply (Hall head); eapply list_elem_of_lookup_2; eauto.
  - rewrite length_insert. exact Hlt.
  - apply list_lookup_insert_eq. exact Hlt.
  - apply destroy_chain_dangling.
Qed.

Lemma destroy_after_remove_later_entry_witness :
  let j := entry_of ["j"%byte] ["w"%byte] in
  let k := entry_of ["k"%byte] ["v"%byte] in
  let ht := mkHashTable 1 2 (Some [Node j (Node k NULL)]) in
  removeFromHashTable true (Some ht) ["k"%byte] 1
  = Ok (Some (mkHashTable 1 2 (Some [Node j Dangling]))) /\
  destroyHashTable (Some (mkHashTable 1 2 (Some [Node j Dangling])))
  = Undefined UseAfterFree.
Proof.
  intros j k ht. split; [reflexivity|].
  apply (destroy_after_remove_later_entry true ht [Node j (Node k NULL)]
           ["k"%byte] 1 [j] k NULL).
  - unfold table_wf. repeat split; try reflexivity. repeat constructor.
  - vm_compute. congruence.
  - reflexivity.
  - discriminate.
  - constructor; [|constructor]. intros [_ H]. discriminate.
  - split; reflexivity.
  - reflexivity.
Defined.

(** ** Fresh tables *)

Lemma findInHashTable_None (signed : bool) (ht : HashTable)
    (buckets : list chain) (k : list byte) (n : Z) :
  table ht = Some buckets ->
  findInHashTable signed (Some ht) k n = Ok None ->
  exists hash c,
    bucket_of signed ht k n = Ok hash /\
    buckets !! Z.to_nat hash = Some c /\
    find_chain c k n = Ok None.
Proof.
  intros Ht. unfold findInHashTable. rewrite Ht.
  destruct (bucket_of signed ht k n) as [hash|]; cbn [bind]; [|discriminate].
  destruct (bucket buckets hash) as [c|] eqn:Hb; cbn [bind]; [|discriminate].
  apply bucket_Ok in Hb. intros H. eauto.
Qed.

Lemma createHashTable_Some (size : Z) (o o' : oracle) (ht : HashTable) :
  createHashTable size o = (Some ht, o') ->
  ht = mkHashTable (u32 size) 0 (Some (repeat NULL (Z.to_nat size))).
Proof.
  unfold createHashTable.
  destruct (MALLOC sizeof_HashTable o) as [[] oa]; cbn [negb]; [|discriminate].
  destruct (MALLOC _ oa) as [[] ob]; cbn [negb]; [|discriminate].
  intros [= <- _]. reflexivity.
Qed.

(** X14.  A table that [createHashTable] returned for a positive capacity holds
    nothing: every lookup returns null, every removal leaves it as it is,
    and [destroyHashTable] frees the bucket array and the table object. *)
Theorem fresh_table_is_empty (signed : bool) (size : Z) (o o' : oracle)
    (ht : HashTable) (k : list byte) (n : Z) :
  0 < size < 2 ^ 31 ->
  createHashTable size o = (Some ht, o') ->
  n <= blen k ->
  findInHashTable signed (Some ht) k n = Ok None /\
  removeFromHashTable signed (Some ht) k n = Ok (Some ht) /\
  destroyHashTable (Some ht) = Ok 2%nat.
Proof.
  intros Hsize Hc Hn.
  destruct (createHashTable_table_wf size o o' ht Hsize Hc) as (buckets & Hwf).
  pose proof (createHashTable_Some size o o' ht Hc) as ->.
  pose proof Hwf as ([= <-] & _).
  assert (findInHashTable signed
            (Some (mkHashTable (u32 size) 0 (Some (repeat NULL (Z.to_nat size))))) k n
          = Ok None) as Hfind.
  { destruct (table_wf_bucket signed _ _ k n Hwf Hn) as (hash & head & Hh & Hb & _).
    rewrite (findInHashTable_bucket signed _ _ k n hash head (proj1 Hwf) Hh Hb).
    apply list_elem_of_lookup_2, list_elem_of_In, repeat_spec in Hb. subst head.
    reflexivity. }
  split; [exact Hfind|]. split.
  - destruct (findInHashTable_None signed _ _ k n (proj1 Hwf) Hfind)
      as (hash & c & Hh & Hb & Hf).
    unfold removeFromHashTable. cbn [table]. rewrite Hh. cbn [bind].
    apply bucket_Ok in Hb as Hb'. rewrite Hb'. cbn [bind].
    rewrite (remove_chain_absent c false k n Hf). cbn [bind].
    rewrite list_insert_id by exact Hb. reflexivity.
  - destruct Hwf as (_ & Hcap & _ & Hall). unfold destroyHashTable.
    cbn [table capacity] in *.
    rewrite (destroy_from_terminated _ 0 (repeat NULL (Z.to_nat size))).
    + rewrite drop_0, total_entries_empty. reflexivity.
    + unfold blen in Hcap. lia.
    + eapply Forall_impl; [exact Hall|]. intros c [H _]. exact H.
Qed.

Lemma fresh_table_is_empty_witness :
  let ht := mkHashTable 3 0 (Some [NULL; NULL; NULL]) in
  findInHashTable true (Some ht) ["k"%byte] 1 = Ok None /\
  removeFromHashTable true (Some ht) ["k"%byte] 1 = Ok (Some ht) /\
  destroyHashTable (Some ht) = Ok 2%nat.
Proof.
  intros ht.
  apply (fresh_table_is_empty true 3 [] [] ht ["k"%byte] 1).
  - lia.
  - reflexivity.
  - vm_compute. congruence.
Defined.

(** X15.  The table that [createHashTable] returns for the capacity 0 has no
    bucket: with a key buffer of at least [keysize] bytes, every insertion,
    lookup and removal on it divides by zero.  [destroyHashTable] releases
    it. *)
Theorem zero_capacity_table_divides_by_zero (signed : bool) (o o' : oracle)
    (ht : HashTable) (k : list byte) (n : Z) (w : list byte) (valuesize : Z)
    (o2 : oracle) :
  createHashTable 0 o = (Some ht, o') ->
  n <= blen k ->
  insertInHashTable signed (Some ht) k n w valuesize o2 = Undefined DivByZero /\
  findInHashTable signed (Some ht) k n = Undefined DivByZero /\
  removeFromHashTable signed (Some ht) k n = Undefined DivByZero /\
  destroyHashTable (Some ht) = Ok 2%nat.
Proof.
  intros Hc Hn. apply createHashTable_Some in Hc. subst ht.
  unfold insertInHashTable, findInHashTable, removeFromHashTable, bucket_of, HASH.
  cbn [table capacity]. rewrite RSHash_char_hash by exact Hn.
  repeat split; reflexivity.
Qed.

Lemma zero_capacity_table_divides_by_zero_witness :
  let ht := mkHashTable 0 0 (Some []) in
  insertInHashTable true (Some ht) ["k"%byte] 1 ["v"%byte] 1 []
  = Undefined DivByZero /\
  findInHashTable true (Some ht) ["k"%byte] 1 = Undefined DivByZero /\
  removeFromHashTable true (Some ht) ["k"%byte] 1 = Undefined DivByZero /\
  destroyHashTable (Some ht) = Ok 2%nat.
Proof.
  intros ht.
  apply (zero_capacity_table_divides_by_zero true [] [] ht ["k"%byte] 1
           ["v"%byte] 1 []).
  - reflexivity.
  - vm_compute. congruence.
Defined.

(** ** Range of the hash and of the bucket index *)

Lemma u32_range (z : Z) : 0 <= u32 z < 2 ^ 32.
Proof. unfold u32. apply Z.mod_pos_bound. lia. Qed.

Lemma RSHash_loop_range (signed : bool) (count : nat) :
  forall (key : list byte) (a hash h : Z),
    0 <= hash < 2 ^ 32 ->
    RSHash_loop signed count key a hash = Ok h ->
    0 <= h < 2 ^ 32.
Proof.
  induction count as [|count IH]; intros key a hash h Hrange H;
    cbn [RSHash_loop] in H.
  - injection H as <-. exact Hrange.
  - destruct key as [|c key']; [discriminate|].
    eapply IH; [|exact H]. apply u32_range.
Qed.

(** X16.  Whenever [RSHash] returns, its result is below [2^32]; it is 0 for a
    key of no bytes and depends on the first [keysize] bytes of the buffer
    only; and for a positive capacity the bucket index lies below the
    capacity. *)
Theorem RSHash_range (signed : bool) (ht : HashTable) (k k' : list byte) (n : Z) :
  (forall h, RSHash signed k n = Ok h -> 0 <= h < 2 ^ 32) /\
  RSHash signed k 0 = Ok 0 /\
  (n <= blen k -> n <= blen k' ->
   firstn (Z.to_nat n) k = firstn (Z.to_nat n) k' ->
   RSHash signed k n = RSHash signed k' n) /\
  (0 < capacity ht ->
   forall hash, bucket_of signed ht k n = Ok hash -> 0 <= hash < capacity ht).
Proof.
  split; [|split; [|split]].
  - intros h H. unfold RSHash in H.
    eapply RSHash_loop_range; [|exact H]. lia.
  - reflexivity.
  - intros Hk Hk' Heq. rewrite !RSHash_char_hash by assumption.
    rewrite Heq. reflexivity.
  - intros Hpos hash H. unfold bucket_of in H.
    destruct (HASH signed k n) as [h|]; cbn [bind] in H; [|discriminate].
    destruct (capacity ht =? 0); [discriminate|]. injection H as <-.
    apply Z.mod_pos_bound. exact Hpos.
Qed.

Lemma RSHash_range_witness :
  RSHash true ["a"%byte; "b"%byte] 1 = RSHash true ["a"%byte; "c"%byte] 1 /\
  (forall hash,
      bucket_of true (mkHashTable 4 0 (Some [NULL; NULL; NULL; NULL]))
        ["a"%byte; "b"%byte] 1 = Ok hash ->
      0 <= hash < 4).
Proof.
  destruct (RSHash_range true (mkHashTable 4 0 (Some [NULL; NULL; NULL; NULL]))
              ["a"%byte; "b"%byte] ["a"%byte; "c"%byte] 1)
    as (_ & _ & Hprefix & Hidx).
  split.
  - apply Hprefix; [vm_compute; congruence | vm_compute; congruence | reflexivity].
  - apply Hidx. reflexivity.
Defined.

(** ** Calls that follow an insertion *)

Lemma same_bytes_key_of (e e' : HashTableEntry) (k : list byte) (n : Z) :
  key_of e = key_of e' -> same_bytes e k n = same_bytes e' k n.
Proof. unfold key_of, same_bytes. intros [= _ ->]. reflexivity. Qed.

Lemma overwrite_granting_size (e : HashTableEntry) (valuesize : Z) (o : oracle) :
  granting o -> valuesize < 2 ^ 16 ->
  valuesize <= value_size (v (fst (overwrite e valuesize o))).
Proof.
  intros Ho Hv. unfold overwrite, REALLOC.
  destruct (Z.ltb_spec (value_size (v e)) valuesize) as [Hlt | Hge];
    [|exact Hge].
  destruct (MALLOC_granting valuesize o Ho) as (o1 & -> & _).
  { unfold PTRDIFF_MAX. lia. }
  cbn. lia.
Qed.

Lemma insertInHashTable_taken (signed : bool) (ht : HashTable)
    (buckets : list chain) (k : list byte) (n : Z) (w : list byte)
    (valuesize : Z) (o : oracle) (hash : Z) (pre : list HashTableEntry)
    (e : HashTableEntry) (post : chain) :
  table ht = Some buckets ->
  bucket_of signed ht k n = Ok hash ->
  buckets !! Z.to_nat hash = Some (chain_app pre (Node e post)) ->
  Forall (passed_for k n) pre ->
  taken_for k n e ->
  insertInHashTable signed (Some ht) k n w valuesize o
  = Ok (0,
        Some (mkHashTable (capacity ht) (size ht)
                (Some (<[Z.to_nat hash :=
                          chain_app pre (Node (fst (overwrite e valuesize o)) post)]>
                         buckets))),
        snd (overwrite e valuesize o)).
Proof.
  intros Ht Hh Hb Hpre Hhit.
  unfold insertInHashTable. rewrite Ht, Hh. cbn [bind].
  apply bucket_Ok in Hb. rewrite Hb. cbn [bind].
  assert (match chain_app pre (Node e post) with
          | NULL =>
              let* fresh := new_entry k n w valuesize o in
              let '(e, o1) := fresh in Ok (Node e NULL, true, o1)
          | _ => insert_chain (chain_app pre (Node e post)) k n w valuesize o
          end = insert_chain (chain_app pre (Node e post)) k n w valuesize o) as ->
      by (destruct pre; reflexivity).
  rewrite insert_chain_taken by assumption. reflexivity.
Qed.

(** X7.  With an allocator that grants its requests, a second
    [insertInHashTable] call for the same key and a value that is not longer
    returns 0 and changes nothing, whatever bytes the value has: the bytes
    stored for a key are those of its first insertion. *)
Theorem insert_again_changes_nothing (signed : bool) (ht : HashTable)
    (k : list byte) (n : Z) (w : list byte) (valuesize : Z) (o o1 : oracle)
    (ret : Z) (res : HashTable) (w2 : list byte) (valuesize2 : Z) (o2 : oracle) :
  granting o ->
  valuesize < 2 ^ 16 ->
  valuesize2 <= valuesize ->
  insertInHashTable signed (Some ht) k n w valuesize o = Ok (ret, Some res, o1) ->
  ret = 0 ->
  insertInHashTable signed (Some res) k n w2 valuesize2 o2 = Ok (0, Some res, o2).
Proof.
  intros Ho Hv Hle Hins ->.
  apply insertInHashTable_Ok in Hins
    as [(_ & Hret & _) | (buckets & hash & head & head' & counted & Ht & Hh & Hb
                          & Hscan & _ & [= ->])]; [discriminate|].
  assert (Z.to_nat hash < length buckets)%nat as Hlt
      by (apply lookup_lt_is_Some; eauto).
  assert (exists pre e post,
             head' = chain_app pre (Node e post) /\
             Forall (passed_for k n) pre /\ taken_for k n e /\
             valuesize <= value_size (v e))
    as (pre & e & post & -> & Hpre & Hhit & Hsize).
  { apply insert_chain_Ok in Hscan
      as [(_ & pre & e & post & _ & Hpre & Hhit & -> & _)
         | (_ & e & _ & Hpre & Hnew & ->)].
    - exists pre, (fst (overwrite e valuesize o)), post.
      split; [reflexivity|]. split; [exact Hpre|]. split.
      + unfold taken_for in *. rewrite <- Hhit.
        apply same_bytes_key_of, overwrite_key_of.
      + apply overwrite_granting_size; assumption.
    - exists (chain_entries head), e, NULL.
      split; [reflexivity|]. split; [exact Hpre|].
      apply new_entry_Ok in Hnew as (Hlen & _ & ->). split.
      + apply same_bytes_own; [exact Hlen | reflexivity].
      + cbn. lia. }
  rewrite (insertInHashTable_taken signed _
             (<[Z.to_nat hash := chain_app pre (Node e post)]> buckets)
             k n w2 valuesize2 o2 hash pre e post); try assumption.
  - rewrite overwrite_not_longer by lia. cbn [fst snd capacity size].
    rewrite list_insert_insert_eq. reflexivity.
  - reflexivity.
  - apply list_lookup_insert_eq. exact Hlt.
Qed.

Lemma insert_again_changes_nothing_witness :
  let res := mkHashTable 1 1 (Some [Node (entry_of ["k"%byte] ["v"%byte]) NULL]) in
  insertInHashTable true (Some res) ["k"%byte] 1 ["z"%byte] 1 [false]
  = Ok (0, Some res, [false]).
Proof.
  intros res.
  apply (insert_again_changes_nothing true one_bucket ["k"%byte] 1 ["v"%byte] 1
           [] [] 0 res ["z"%byte] 1 [false]).
  - constructor.
  - lia.
  - lia.
  - reflexivity.
  - reflexivity.
Defined.

(** X11.  A key inserted into an empty bucket and removed again: the buckets are
    what they were before the two calls, and [size] is one more. *)
Theorem insert_then_remove_empty_bucket (signed : bool) (ht : HashTable)
    (buckets : list chain) (k : list byte) (n : Z) (w : list byte)
    (valuesize : Z) (o o1 : oracle) (hash ret : Z) (res : option HashTable) :
  table ht = Some buckets ->
  bucket_of signed ht k n = Ok hash ->
  buckets !! Z.to_nat hash = Some NULL ->
  insertInHashTable signed (Some ht) k n w valuesize o = Ok (ret, res, o1) ->
  removeFromHashTable signed res k n
  = Ok (Some (mkHashTable (capacity ht) (u32 (size ht + 1)) (Some buckets))).
Proof.
  intros Ht Hh Hb Hins.
  apply insertInHashTable_Ok in Hins
    as [(Hnone & _) | (bs & hash' & head & head' & counted & Ht' & Hh' & Hb'
                       & Hscan & _ & ->)]; [congruence|].
  rewrite Ht in Ht'. injection Ht' as <-.
  rewrite Hh in Hh'. injection Hh' as <-.
  rewrite Hb in Hb'. injection Hb' as <-.
  cbn [insert_chain] in Hscan.
  destruct (new_entry k n w valuesize o) as [[e o2]|] eqn:Hnew;
    cbn [bind] in Hscan; [|discriminate].
  injection Hscan as <- <- <-.
  apply new_entry_Ok in Hnew as (Hlen & _ & ->).
  assert (Z.to_nat hash < length buckets)%nat as Hlt
      by (apply lookup_lt_is_Some; eauto).
  unfold removeFromHashTable. cbn [table].
  rewrite (bucket_of_capacity signed ht (mkHashTable (capacity ht) _ _) k n eq_refl).
  rewrite Hh. cbn [bind]. unfold bucket.
  rewrite list_lookup_insert_eq by exact Hlt. cbn [bind remove_chain].
  rewrite same_key_own by (try reflexivity; exact Hlen). cbn [bind capacity size].
  rewrite list_insert_insert_eq, list_insert_id by exact Hb. reflexivity.
Qed.

Lemma insert_then_remove_empty_bucket_witness :
  exists res,
    insertInHashTable true (Some one_bucket) ["k"%byte] 1 ["v"%byte] 1 []
    = Ok (0, res, []) /\
    removeFromHashTable true res ["k"%byte] 1
    = Ok (Some (mkHashTable 1 1 (Some [NULL]))).
Proof.
  eexists. split; [vm_compute; reflexivity|].
  apply (insert_then_remove_empty_bucket true one_bucket [NULL] ["k"%byte] 1
           ["v"%byte] 1 [] [] 0 0); reflexivity.
Defined.

(** ** Insertion adds no other key *)

Lemma same_key_other (e : HashTableEntry) (k k2 : list byte) (n n2 : Z) :
  n <= blen k -> n2 <= blen k2 ->
  key e = Some (firstn (Z.to_nat n) k) ->
  key_size e = n ->
  ~ (n2 = n /\ firstn (Z.to_nat n2) k2 = firstn (Z.to_nat n) k) ->
  same_key e k2 n2 = Ok false.
Proof.
  intros Hk Hk2 Hkey Hsize Hne. unfold same_key. rewrite Hkey, Hsize.
  destruct (Z.eqb_spec n n2) as [<- | _]; [|reflexivity].
  destruct (memcmp_zero (firstn (Z.to_nat n) k) k2 n) as (r & -> & Hr).
  - unfold blen in *. rewrite length_firstn. lia.
  - exact Hk2.
  - cbn [bind]. f_equal. apply Z.eqb_neq. intros Hz. apply Hne.
    split; [reflexivity|]. apply Hr in Hz.
    rewrite firstn_firstn in Hz. rewrite <- Hz. f_equal. lia.
Qed.

Lemma find_chain_replaced_absent (pre : list HashTableEntry)
    (e e' : HashTableEntry) (post : chain) (k : list byte) (n : Z) :
  key_of e' = key_of e ->
  find_chain (chain_app pre (Node e post)) k n = Ok None ->
  find_chain (chain_app pre (Node e' post)) k n = Ok None.
Proof.
  intros Hk. induction pre as [|x pre IH]; cbn [chain_app fold_right find_chain].
  - rewrite (same_key_key_of e' e k n Hk).
    destruct (same_key e k n) as [[]|]; cbn [bind]; [discriminate|auto|discriminate].
  - destruct (same_key x k n) as [[]|]; cbn [bind]; [discriminate|exact IH|discriminate].
Qed.

Lemma find_chain_appended_absent (es : list HashTableEntry) (e : HashTableEntry)
    (k : list byte) (n : Z) :
  find_chain (chain_app es NULL) k n = Ok None ->
  find_chain (chain_app es (Node e NULL)) k n = find_chain (Node e NULL) k n.
Proof.
  induction es as [|x es IH]; cbn [chain_app fold_right]; [reflexivity|].
  cbn [find_chain].
  destruct (same_key x k n) as [[]|]; cbn [bind]; [discriminate|exact IH|discriminate].
Qed.

(** X3.  A key that [findInHashTable] reports absent is still absent after an
    [insertInHashTable] call for another key, that is one of another length
    or with other bytes. *)
Theorem insert_adds_no_other_key (signed : bool) (ht : HashTable)
    (k : list byte) (n : Z) (w : list byte) (valuesize : Z) (o o' : oracle)
    (ret : Z) (res : HashTable) (k2 : list byte) (n2 : Z) :
  insertInHashTable signed (Some ht) k n w valuesize o = Ok (ret, Some res, o') ->
  ret = 0 ->
  n2 <= blen k2 ->
  ~ (n2 = n /\ firstn (Z.to_nat n2) k2 = firstn (Z.to_nat n) k) ->
  findInHashTable signed (Some ht) k2 n2 = Ok None ->
  findInHashTable signed (Some res) k2 n2 = Ok None.
Proof.
  intros Hins -> Hn2 Hother Hfind.
  apply insertInHashTable_Ok in Hins
    as [(_ & Hret & _) | (buckets & hash & head & head' & counted & Ht & Hh & Hb
                          & Hscan & _ & [= ->])]; [discriminate|].
  destruct (findInHashTable_None signed ht buckets k2 n2 Ht Hfind)
    as (hash2 & c2 & Hh2 & Hb2 & Hf).
  destruct (Nat.eq_dec (Z.to_nat hash2) (Z.to_nat hash)) as [Heq | Hne].
  - rewrite (findInHashTable_rewritten_bucket signed ht buckets _ _ head' k2 n2
               hash2 Hh2 Heq) by (apply lookup_lt_is_Some; eauto).
    rewrite Heq, Hb in Hb2. injection Hb2 as <-.
    apply insert_chain_Ok in Hscan
      as [(_ & pre & e & post & -> & _ & _ & -> & _)
         | (_ & e & Hc & _ & Hnew & ->)].
    + apply (find_chain_replaced_absent pre e); [|exact Hf].
      apply overwrite_key_of.
    + rewrite Hc in Hf. rewrite (find_chain_appended_absent _ e k2 n2 Hf).
      apply new_entry_Ok in Hnew as (Hlen & _ & ->).
      cbn [find_chain].
      rewrite same_key_other with (k := k) (n := n);
        [reflexivity | exact Hlen | exact Hn2 | reflexivity | reflexivity
        | exact Hother].
  - rewrite (findInHashTable_other_bucket signed ht buckets _ _ head' k2 n2 hash2
               Ht Hh2 Hne).
    exact Hfind.
Qed.

Lemma insert_adds_no_other_key_witness :
  let ht := mkHashTable 1 1 (Some [Node (entry_of ["j"%byte] ["w"%byte]) NULL]) in
  let res := mkHashTable 1 2
               (Some [Node (entry_of ["j"%byte] ["w"%byte])
                        (Node (entry_of ["k"%byte] ["v"%byte]) NULL)]) in
  findInHashTable true (Some res) ["l"%byte] 1 = Ok None.
Proof.
  intros ht res.
  apply (insert_adds_no_other_key true ht ["k"%byte] 1 ["v"%byte] 1 [] [] 0 res
           ["l"%byte] 1).
  - reflexivity.
  - reflexivity.
  - vm_compute. congruence.
  - intros [_ H]. discriminate.
  - reflexivity.
Defined.

(** ** Refused allocations *)

(** X17.  When the scan takes an entry, the new value is longer and [REALLOC]
    is refused, [insertInHashTable] returns 0 like a successful call and the
    table object is what it was. *)
Theorem insert_realloc_refused (signed : bool) (ht : HashTable)
    (buckets : list chain) (k : list byte) (n : Z) (w : list byte)
    (valuesize : Z) (o : oracle) (hash : Z) (pre : list HashTableEntry)
    (e : HashTableEntry) (post : chain) :
  table ht = Some buckets ->
  bucket_of signed ht k n = Ok hash ->
  buckets !! Z.to_nat hash = Some (chain_app pre (Node e post)) ->
  Forall (passed_for k n) pre ->
  taken_for k n e ->
  value_size (v e) < valuesize ->
  insertInHashTable signed (Some ht) k n w valuesize (false :: o)
  = Ok (0, Some ht, o).
Proof.
  intros Ht Hh Hb Hpre Hhit Hlt.
  rewrite (insertInHashTable_taken signed ht buckets k n w valuesize (false :: o)
             hash pre e post Ht Hh Hb Hpre Hhit).
  assert (overwrite e valuesize (false :: o) = (e, o)) as ->.
  { unfold overwrite, REALLOC, MALLOC.
    destruct (Z.ltb_spec (value_size (v e)) valuesize); [reflexivity | lia]. }
  cbn [fst snd]. rewrite list_insert_id by exact Hb.
  destruct ht as [cap sz tbl]. cbn in *. subst tbl. reflexivity.
Qed.

Lemma insert_realloc_refused_witness :
  let ht := mkHashTable 1 1 (Some [Node (entry_of ["k"%byte] ["v"%byte]) NULL]) in
  insertInHashTable true (Some ht) ["k"%byte] 1 ["x"%byte; "y"%byte] 2 [false; true]
  = Ok (0, Some ht, [true]).
Proof.
  intros ht.
  apply (insert_realloc_refused true ht
           [Node (entry_of ["k"%byte] ["v"%byte]) NULL] ["k"%byte] 1
           ["x"%byte; "y"%byte] 2 [true] 0 [] (entry_of ["k"%byte] ["v"%byte]) NULL).
  - reflexivity.
  - reflexivity.
  - reflexivity.
  - constructor.
  - reflexivity.
  - vm_compute. reflexivity.
Defined.

Lemma insert_chain_passed (c : chain) (k : list byte) (n : Z) (w : list byte)
    (valuesize : Z) (o : oracle) :
  terminated c ->
  Forall (passed_for k n) (chain_entries c) ->
  insert_chain c k n w valuesize o =
  (let* fresh := new_entry k n w valuesize o in
   let '(e, o1) := fresh in
   Ok (chain_app (chain_entries c) (Node e NULL), true, o1)).
Proof.
  induction c as [|e next IH|]; cbn [terminated chain_entries insert_chain];
    intros Hterm Hall.
  - reflexivity.
  - apply Forall_cons in Hall as [He Hall]. unfold passed_for in He.
    rewrite He. cbn [bind]. rewrite (IH Hterm Hall).
    destruct (new_entry k n w valuesize o) as [[e0 o1]|]; reflexivity.
  - contradiction.
Qed.

(** X18.  When the scan passes every entry of a null-terminated chain and the
    allocator refuses the node, or grants it and refuses the key buffer, the
    call writes through the null pointer it got. *)
Theorem insert_malloc_refused (signed : bool) (ht : HashTable)
    (buckets : list chain) (k : list byte) (n : Z) (w : list byte)
    (valuesize : Z) (o : oracle) (hash : Z) (head : chain) (b : bool) :
  table ht = Some buckets ->
  bucket_of signed ht k n = Ok hash ->
  buckets !! Z.to_nat hash = Some head ->
  terminated head ->
  Forall (passed_for k n) (chain_entries head) ->
  insertInHashTable signed (Some ht) k n w valuesize (false :: o)
  = Undefined NullDeref /\
  insertInHashTable signed (Some ht) k n w valuesize (true :: false :: b :: o)
  = Undefined NullDeref.
Proof.
  intros Ht Hh Hb Hterm Hall.
  assert (forall o0,
             new_entry k n w valuesize o0 = Undefined NullDeref ->
             insertInHashTable signed (Some ht) k n w valuesize o0
             = Undefined NullDeref) as Hfail.
  { intros o0 Hnew. unfold insertInHashTable. rewrite Ht, Hh. cbn [bind].
    apply bucket_Ok in Hb. rewrite Hb. cbn [bind].
    assert (match head with
            | NULL =>
                let* fresh := new_entry k n w valuesize o0 in
                let '(e, o1) := fresh in Ok (Node e NULL, true, o1)
            | _ => insert_chain head k n w valuesize o0
            end = insert_chain head k n w valuesize o0) as ->
        by (destruct head; reflexivity).
    rewrite (insert_chain_passed head k n w valuesize o0 Hterm Hall), Hnew.
    reflexivity. }
  split; apply Hfail; unfold new_entry, MALLOC; cbn [andb negb]; [reflexivity|].
  destruct (b && (valuesize <=? PTRDIFF_MAX)); reflexivity.
Qed.

Lemma insert_malloc_refused_witness :
  insertInHashTable true (Some one_bucket) ["k"%byte] 1 ["v"%byte] 1 [false]
  = Undefined NullDeref /\
  insertInHashTable true (Some one_bucket) ["k"%byte] 1 ["v"%byte] 1
    [true; false; true]
  = Undefined NullDeref.
Proof.
  apply (insert_malloc_refused true one_bucket [NULL] ["k"%byte] 1 ["v"%byte] 1
           [] 0 NULL true).
  - reflexivity.
  - reflexivity.
  - reflexivity.
  - exact I.
  - constructor.
Defined.
